(** * osconfig agent: task queue, structured extraction and inventory
      reconciliation

    A shallow embedding of four pieces of the agent:
    - [packages]: the package record, the legacy dpkg record construction
      and the inventory comparator ([inventory_comporator.go]);
    - [gojson] and [report]: the part of [encoding/json] the comparator's
      report goes through, and [printComparisonResult];
    - [extractors] and [scalibr]: the record of the structured path and
      its extractor ([deconstructScanResult], [inventoryFrom]);
    - [tasker]: the single-worker task queue, as an interleaving
      semantics of its goroutines.
    The definitions come first, module by module; the facts about each
    module follow in a module of the same name with the suffix [_facts]. *)

From stdpp Require Import gmap strings list fin_maps pretty sorting.

#[local] Set Warnings "-clear-no-such-hyp,-register-all".

Open Scope string_scope.
Open Scope list_scope.
Open Scope nat_scope.

(** ** Package [packages] *)

Module packages.

(** [type Source struct { Name, Version string }] *)
Record Source := mkSource {
  Source_Name : string;
  Source_Version : string
}.

(** [type PkgInfo struct { Name, Arch, RawArch, Version string; Source Source }] *)
Record PkgInfo := mkPkgInfo {
  Name : string;
  Arch : string;
  RawArch : string;
  Version : string;
  PkgInfo_Source : Source
}.

#[global] Instance Source_eq_dec : EqDecision Source.
Proof. solve_decision. Defined.

#[global] Instance PkgInfo_eq_dec : EqDecision PkgInfo.
Proof. solve_decision. Defined.

(** [type packageMetadata struct], the JSON record [dpkg-query] prints. *)
Record packageMetadata := mkPackageMetadata {
  Package : string;
  Architecture : string;
  pm_Version : string;
  Status : string;
  SourceName : string;
  SourceVersion : string
}.

(** Modelled from the spec: [osinfo.NormalizeArchitecture] is not part of
    the sources at hand.  The spec says that the vendor-specific spellings
    "noarch" and "all" map to one canonical token; the rpm parser test
    ([TestParseInstalledRPMPackages]) pins that token: "noarch" becomes
    "all" and "x86_64" stays as it is.  Other spellings are left alone. *)
Definition NormalizeArchitecture (arch : string) : string :=
  if decide (arch = "noarch") then "all" else arch.

(** [func pkgInfoFromPackageMetadata(pm packageMetadata) *PkgInfo];
    [RawArch] keeps Go's zero value. *)
Definition pkgInfoFromPackageMetadata (pm : packageMetadata) : PkgInfo :=
  {| Name := Package pm;
     Arch := NormalizeArchitecture (Architecture pm);
     RawArch := "";
     Version := pm_Version pm;
     PkgInfo_Source := {| Source_Name := SourceName pm;
                          Source_Version := SourceVersion pm |} |}.

(** Modelled from the spec: the method [key] of [PkgInfo] is not part of the
    sources at hand.  The spec fixes the identity key of a package record
    as (Name, Architecture, Version); the Go map is keyed by a string that
    renders this triple, the model keys the index by the triple itself. *)
Definition pkgkey : Type := string * string * string.

Definition key (i : PkgInfo) : pkgkey := (Name i, Arch i, Version i).

(** [type comparisonResults struct]; Go's [int] counts are lengths of
    slices, modelled in [nat]. *)
Record comparisonResults := mkComparisonResults {
  legacyExtractorItemsCount : nat;
  modernExtractorItemsCount : nat;
  legacyExtractorExtra : list PkgInfo;
  modernExtractorExtra : list PkgInfo
}.

(** [func indexByKey(pkgs []*PkgInfo) map[string]*PkgInfo]: the loop
    assigns [results[pkg.key()] = pkg] from the first record to the last,
    so a later record replaces an earlier one with the same key.  The
    pointers of an inventory are taken to be non-nil. *)
Definition indexByKey (pkgs : list PkgInfo) : gmap pkgkey PkgInfo :=
  foldl (fun results pkg => <[key pkg := pkg]> results) ∅ pkgs.

(** One [for key, pkg := range index] loop of [compareExtractedPackages]:
    [visited] is the sequence of entries in the order the loop meets them,
    [other] the index the key is looked up in; the entry is appended to
    the extra list when the lookup misses. *)
Definition extraLoop (visited : list (pkgkey * PkgInfo))
    (other : gmap pkgkey PkgInfo) : list PkgInfo :=
  foldl (fun extra '(k, pkg) =>
           match other !! k with
           | None => extra ++ [pkg]
           | Some _ => extra
           end) [] visited.

(** Go leaves the iteration order of [range] over a map unspecified: a
    loop visits every entry once, in some order. *)
Definition rangeOrder (m : gmap pkgkey PkgInfo)
    (visited : list (pkgkey * PkgInfo)) : Prop :=
  visited ≡ₚ map_to_list m.

(** The body of [compareExtractedPackages] for given iteration orders of
    its two loops. *)
Definition compareVisiting (lo mo : list (pkgkey * PkgInfo))
    (legacyExtractor modernExtractor : list PkgInfo) : comparisonResults :=
  let legacyExtractorIndex := indexByKey legacyExtractor in
  let modernExtractorIndex := indexByKey modernExtractor in
  {| legacyExtractorItemsCount := length legacyExtractor;
     modernExtractorItemsCount := length modernExtractor;
     legacyExtractorExtra := extraLoop lo modernExtractorIndex;
     modernExtractorExtra := extraLoop mo legacyExtractorIndex |}.

(** [func compareExtractedPackages(legacyExtractor, modernExtractor []*PkgInfo)
    comparisonResults], run with the iteration order [map_to_list] picks. *)
Definition compareExtractedPackages
    (legacyExtractor modernExtractor : list PkgInfo) : comparisonResults :=
  compareVisiting (map_to_list (indexByKey legacyExtractor))
                  (map_to_list (indexByKey modernExtractor))
                  legacyExtractor modernExtractor.

(** Every result a call of [compareExtractedPackages] can return: one for
    each pair of iteration orders. *)
Inductive compareReturns (legacyExtractor modernExtractor : list PkgInfo)
  : comparisonResults → Prop :=
| compareReturns_intro lo mo :
    rangeOrder (indexByKey legacyExtractor) lo →
    rangeOrder (indexByKey modernExtractor) mo →
    compareReturns legacyExtractor modernExtractor
      (compareVisiting lo mo legacyExtractor modernExtractor).

(** No two different records of the inventory share a key. *)
Definition keyConsistent (l : list PkgInfo) : Prop :=
  ∀ p q, p ∈ l → q ∈ l → key p = key q → p = q.

(** The records of the spec's worked example. *)
Definition pkg (n a v : string) : PkgInfo :=
  {| Name := n; Arch := a; RawArch := ""; Version := v;
     PkgInfo_Source := {| Source_Name := ""; Source_Version := "" |} |}.

(** The two inventories of the spec's worked example. *)
Definition example_legacy : list PkgInfo := [pkg "a" "x86_64" "1.0"].
Definition example_modern : list PkgInfo :=
  [pkg "a" "x86_64" "1.0"; pkg "b" "noarch" "2.0"].

(** Two records with one identity key ("tzdata", "all", "2024a") that
    differ in the raw architecture they were read with. *)
Definition tzdata_rpm : PkgInfo :=
  {| Name := "tzdata"; Arch := "all"; RawArch := "noarch";
     Version := "2024a";
     PkgInfo_Source := {| Source_Name := ""; Source_Version := "" |} |}.
Definition tzdata_deb : PkgInfo :=
  {| Name := "tzdata"; Arch := "all"; RawArch := "all";
     Version := "2024a";
     PkgInfo_Source := {| Source_Name := ""; Source_Version := "" |} |}.

(** *** [formatFieldsMappingToFormattingString] *)

Definition doubleQuote : string := String (Ascii.ascii_of_nat 34) "".
Definition backslash : string := String (Ascii.ascii_of_nat 92) "".
Definition lineFeed : string := String (Ascii.ascii_of_nat 10) "".

(** The descriptor of one field: the name and the selector, each wrapped in
    double quotes, with a colon between them (the [fmt.Sprintf] of the
    loop). *)
Definition fieldDescriptor (name selector : string) : string :=
  doubleQuote +:+ name +:+ doubleQuote +:+ ":" +:+
  doubleQuote +:+ selector +:+ doubleQuote.

(** [sort.Strings]: into increasing order, strings compared byte by byte. *)
Definition sort_Strings (l : list string) : list string :=
  merge_sort String.le l.

(** [strings.Join] *)
Definition strings_Join (elems : list string) (sep : string) : string :=
  String.concat sep elems.

(** The loop over the map, for the order in which [range] visits it. *)
Definition fieldsDescriptorsOf (visited : list (string * string))
    : list string :=
  foldl (fun fieldsDescriptors '(name, selector) =>
           fieldsDescriptors ++ [fieldDescriptor name selector]) [] visited.

(** The body of [formatFieldsMappingToFormattingString] for a given
    iteration order: a backslash and an opening brace, the sorted
    descriptors joined by commas, a backslash, a closing brace and a line
    feed. *)
Definition formatFieldsVisiting (visited : list (string * string)) : string :=
  backslash +:+ "{" +:+
  strings_Join (sort_Strings (fieldsDescriptorsOf visited)) "," +:+
  backslash +:+ "}" +:+ lineFeed.

(** [func formatFieldsMappingToFormattingString(fieldsMapping
    map[string]string) string], run with the iteration order [map_to_list]
    picks. *)
Definition formatFieldsMappingToFormattingString
    (fieldsMapping : gmap string string) : string :=
  formatFieldsVisiting (map_to_list fieldsMapping).

(** Every text a call can return: one for each iteration order. *)
Inductive formatFieldsReturns (fieldsMapping : gmap string string)
  : string → Prop :=
| formatFieldsReturns_intro visited :
    visited ≡ₚ map_to_list fieldsMapping →
    formatFieldsReturns fieldsMapping (formatFieldsVisiting visited).

(** Three of the fields [dpkg-query] is asked for. *)
Definition exampleFieldsMapping : gmap string string :=
  <["version" := "${Version}"]>
    (<["package" := "${Package}"]>
       (<["architecture" := "${Architecture}"]> ∅)).

End packages.

(** ** [encoding/json], as far as [printComparisonResult] uses it *)

Module gojson.

(** A JSON value. *)
Inductive json :=
| JNull
| JNumber (n : Z)
| JString (s : string)
| JArray (items : list json)
| JObject (members : list (string * json)).

(** One field of a Go struct as [reflect] shows it to the encoder: the Go
    name, the name part of its [json:"..."] tag when it has one, and the
    encoding of its value. *)
Record structField := mkStructField {
  goName : string;
  jsonTag : option string;
  fieldValue : json
}.

(** [reflect.StructField.IsExported]: the Go name starts with an upper-case
    letter. *)
Definition isExported (name : string) : bool :=
  match name with
  | EmptyString => false
  | String c _ =>
      let n := Ascii.nat_of_ascii c in (65 <=? n)%nat && (n <=? 90)%nat
  end.

(** The name a field is encoded under: the tag name when the tag gives
    one, the Go name otherwise. *)
Definition jsonName (f : structField) : string :=
  match jsonTag f with
  | Some t => if decide (t = "") then goName f else t
  | None => goName f
  end.

Definition tagged (f : structField) : bool :=
  match jsonTag f with
  | Some t => if decide (t = "") then false else true
  | None => false
  end.

(** Candidates of [typeFields] for a struct without embedded fields:
    unexported fields are ignored, and so are fields tagged ["-"]. *)
Definition candidateFields (fs : list structField) : list structField :=
  filter (fun f => isExported (goName f) = true ∧ jsonTag f ≠ Some "-") fs.

(** [dominantField] for fields of one depth: among the candidates of one
    JSON name a single one wins, or the single tagged one; several
    candidates of equal standing hide each other. *)
Definition dominant (cands : list structField) (f : structField) : bool :=
  let same := filter (fun g => jsonName g = jsonName f) cands in
  match same with
  | [_] => true
  | _ =>
      tagged f &&
      bool_decide (length (filter (fun g => tagged g = true) same) = 1%nat)
  end.

(** The members [json.Marshal] writes for a struct value. *)
Definition marshalStruct (fs : list structField) : json :=
  let cands := candidateFields fs in
  JObject ((fun f => (jsonName f, fieldValue f)) <$>
             filter (fun f => dominant cands f = true) cands).

Section render.
(** The encoder's rendering of a string literal (quotes and escapes). *)
Variable quote : string → string.

Definition newline (indent : string) (depth : nat) : string :=
  String (Ascii.ascii_of_nat 10) (String.concat "" (replicate depth indent)).

(** [json.MarshalIndent(v, "", indent)] on an encoded value: members and
    items one per line; an empty object is [{}] and an empty array [[]]. *)
Fixpoint renderIndent (indent : string) (depth : nat) (j : json) : string :=
  match j with
  | JNull => "null"
  | JNumber n => pretty n
  | JString s => quote s
  | JArray [] => "[]"
  | JArray items =>
      "[" +:+ newline indent (S depth) +:+
      String.concat ("," +:+ newline indent (S depth))
        (map (renderIndent indent (S depth)) items) +:+
      newline indent depth +:+ "]"
  | JObject [] => "{}"
  | JObject members =>
      "{" +:+ newline indent (S depth) +:+
      String.concat ("," +:+ newline indent (S depth))
        (map (fun m => quote (fst m) +:+ ": " +:+
                       renderIndent indent (S depth) (snd m)) members) +:+
      newline indent depth +:+ "}"
  end.

(** [json.MarshalIndent] on a struct value: the text, or the encoder's
    error.  The encoder fails on channels, functions, complex numbers and
    cyclic values, which a struct of numbers, strings, slices and structs
    does not hold. *)
Definition MarshalIndent (fs : list structField) (indent : string)
    : string + string :=
  inl (renderIndent indent 0 (marshalStruct fs)).
End render.

End gojson.

(** ** The comparator's report, [printComparisonResult] *)

Module report.
Import packages gojson.

(** Encoding of a [Source] value: both fields are exported and untagged. *)
Definition Source_fields (s : Source) : list structField :=
  [ mkStructField "Name" None (JString (Source_Name s));
    mkStructField "Version" None (JString (Source_Version s)) ].

(** Encoding of a [*PkgInfo]: all five fields are exported and untagged. *)
Definition PkgInfo_fields (i : PkgInfo) : list structField :=
  [ mkStructField "Name" None (JString (Name i));
    mkStructField "Arch" None (JString (Arch i));
    mkStructField "RawArch" None (JString (RawArch i));
    mkStructField "Version" None (JString (Version i));
    mkStructField "Source" None (marshalStruct (Source_fields (PkgInfo_Source i))) ].

(** Encoding of a [[]*PkgInfo]: a slice nothing was appended to is nil and
    encodes as [null]. *)
Definition PkgInfos_json (l : list PkgInfo) : json :=
  match l with
  | [] => JNull
  | _ => JArray ((fun i => marshalStruct (PkgInfo_fields i)) <$> l)
  end.

(** The fields of [comparisonResults] with their tags, as declared. *)
Definition comparisonResults_fields (r : comparisonResults) : list structField :=
  [ mkStructField "legacyExtractorItemsCount" (Some "extracted_items_count")
      (JNumber (Z.of_nat (legacyExtractorItemsCount r)));
    mkStructField "modernExtractorItemsCount" (Some "extracted_items_count")
      (JNumber (Z.of_nat (modernExtractorItemsCount r)));
    mkStructField "legacyExtractorExtra" (Some "legacy_extractor_extra")
      (PkgInfos_json (legacyExtractorExtra r));
    mkStructField "modernExtractorExtra" (Some "new_extractor_extra")
      (PkgInfos_json (modernExtractorExtra r)) ].

(** The same struct with the four Go names capitalised, for comparison. *)
Definition exportedResults_fields (r : comparisonResults) : list structField :=
  [ mkStructField "LegacyExtractorItemsCount" (Some "extracted_items_count")
      (JNumber (Z.of_nat (legacyExtractorItemsCount r)));
    mkStructField "ModernExtractorItemsCount" (Some "extracted_items_count")
      (JNumber (Z.of_nat (modernExtractorItemsCount r)));
    mkStructField "LegacyExtractorExtra" (Some "legacy_extractor_extra")
      (PkgInfos_json (legacyExtractorExtra r));
    mkStructField "ModernExtractorExtra" (Some "new_extractor_extra")
      (PkgInfos_json (modernExtractorExtra r)) ].

(** A line [clog] writes. *)
Inductive logLine :=
| Infof (msg : string)
| Errorf (msg : string).

(** [func printComparisonResult(ctx, report comparisonResults)]: the lines
    it logs.  The text [raw] goes to [clog.Infof] as the format, without
    arguments. *)
Definition printComparisonResult (quote : string → string)
    (report : comparisonResults) : list logLine :=
  match MarshalIndent quote (comparisonResults_fields report) "    " with
  | inr err => [ Errorf ("unable comparisonResults, err - " +:+ err) ]
  | inl raw =>
      [ Infof "Comparison results after inventory extraction"; Infof raw ]
  end.

End report.

(** ** Package [extractors] *)

Module extractors.

(** [type Source struct { Name, Version string }] *)
Record Source := mkSource {
  Source_Name : string;
  Source_Version : string
}.

(** [type Inventory struct { Name, Version, RawArch string; Source Source;
    Purl string }]: the record of the structured path.  It has a raw
    architecture and no normalized one. *)
Record Inventory := mkInventory {
  Name : string;
  Version : string;
  RawArch : string;
  Inventory_Source : Source;
  Purl : string
}.

#[global] Instance extractors_Source_eq_dec : EqDecision Source.
Proof. solve_decision. Defined.

#[global] Instance Inventory_eq_dec : EqDecision Inventory.
Proof. solve_decision. Defined.

End extractors.

(** ** Package [scalibr] *)

Module scalibr.

(** Go's [error], by its message. *)
Definition error : Type := string.

(** A Go result [(T, error)] of a function that returns the zero [T] with
    every error. *)
Inductive result (T : Type) :=
| Ok (v : T)
| Err (e : error).
Arguments Ok {T} v.
Arguments Err {T} e.

(** *** What the code reads of [osv-scalibr] *)

(** [dpkg.Metadata], with the fields this package reads and the
    architecture [dpkg] recorded. *)
Record dpkg_Metadata := mkDpkgMetadata {
  SourceName : string;
  SourceVersion : string;
  Architecture : string
}.

(** [Inventory.Metadata] is of type [any]: the dpkg metadata, the metadata
    of some other extractor (named by its kind), or nil.  The pointers the
    scanner hands out are taken to be non-nil: the entries of
    [Inventories], and a [Metadata] of the dpkg pointer type. *)
Inductive metadata :=
| DpkgMetadata (m : dpkg_Metadata)
| OtherMetadata (kind : string)
| NoMetadata.

Definition isDpkg (m : metadata) : Prop :=
  match m with
  | DpkgMetadata _ => True
  | _ => False
  end.

#[global] Instance isDpkg_dec m : Decision (isDpkg m).
Proof. destruct m; simpl; apply _. Defined.

(** [extractor.Inventory] of the scanner. *)
Record scalibr_Inventory := mkScalibrInventory {
  Name : string;
  Version : string;
  Metadata : metadata
}.

(** [plugin.ScanStatusEnum] *)
Inductive ScanStatusEnum :=
| ScanStatusUnspecified
| ScanStatusSucceeded
| ScanStatusPartiallySucceeded
| ScanStatusFailed.

#[global] Instance ScanStatusEnum_eq_dec : EqDecision ScanStatusEnum.
Proof. solve_decision. Defined.

(** [plugin.ScanStatus] *)
Record ScanStatus := mkScanStatus {
  Status : ScanStatusEnum;
  FailureReason : string
}.

(** [scalibr.ScanResult], with the two fields the code reads. *)
Record ScanResult := mkScanResult {
  ScanResult_Status : ScanStatus;
  Inventories : list scalibr_Inventory
}.

(** [scalibr.ScanConfig]: the scan root and the filesystem extractors; the
    only extractor the code ever configures is dpkg's. *)
Inductive Extractor := DpkgExtractor.

Record ScanConfig := mkScanConfig {
  ScanRoots : string;
  FilesystemExtractors : list Extractor
}.

Section extraction.
(** [dpkgExtractor.ToPURL(inventory)] followed by [purl.String()]: the
    package URL of an inventory item, or the error of its construction. *)
Variable ToPURL : scalibr_Inventory → result string.

(** [func extractAdditionalFieldsDpkg(inventory, metadata)
    (extractors.Source, string, error)] *)
Definition extractAdditionalFieldsDpkg (inventory : scalibr_Inventory)
    (md : dpkg_Metadata) : result (extractors.Source * string) :=
  let source := {| extractors.Source_Name := SourceName md;
                   extractors.Source_Version := SourceVersion md |} in
  match ToPURL inventory with
  | Err err => Err ("unable to extract purl, " +:+ err)
  | Ok purl => Ok (source, purl)
  end.

(** [func inventoryFrom(inventory *scalibr_extractor.Inventory)
    (extractors.Inventory, error)]; [RawArch] is not assigned and keeps
    Go's zero value. *)
Definition inventoryFrom (inventory : scalibr_Inventory)
    : result extractors.Inventory :=
  match Metadata inventory with
  | DpkgMetadata md =>
      match extractAdditionalFieldsDpkg inventory md with
      | Err err => Err ("unable to extract additional fields, err: " +:+ err)
      | Ok (source, purl) =>
          Ok {| extractors.Name := Name inventory;
                extractors.Version := Version inventory;
                extractors.RawArch := "";
                extractors.Inventory_Source := source;
                extractors.Purl := purl |}
      end
  | _ => Err "unsupported inventory item"
  end.

(** The loop of [deconstructScanResult]: an item [inventoryFrom] rejects
    is passed over ([continue]), the others are appended in order. *)
Definition mapInventories (invs : list scalibr_Inventory)
    : list extractors.Inventory :=
  foldl (fun inventories inv =>
           match inventoryFrom inv with
           | Err _ => inventories
           | Ok item => inventories ++ [item]
           end) [] invs.

(** [func deconstructScanResult(results *scalibr.ScanResult)
    ([]extractors.Inventory, error)] *)
Definition deconstructScanResult (results : ScanResult)
    : list extractors.Inventory * option error :=
  let scanStatus := ScanResult_Status results in
  if decide (Status scanStatus = ScanStatusFailed) then
    ([], Some ("scan failed, failure reason: " +:+ FailureReason scanStatus))
  else
    let inventories := mapInventories (Inventories results) in
    if decide (Status scanStatus ≠ ScanStatusSucceeded) then
      (inventories,
       Some ("scan partially failed, failure reason: " +:+
             FailureReason scanStatus))
    else (inventories, None).

(** [func fsRootDir() string] *)
Definition fsRootDir (GOOS : string) : string :=
  if decide (GOOS = "windows") then "C:" else "/".

(** [func extractorFrom(es) filesystem.Extractor] and [extractorsFrom]:
    every source is served by the dpkg extractor. *)
Definition extractorFrom {ES : Type} (es : ES) : Extractor := DpkgExtractor.

Definition extractorsFrom {ES : Type} (sources : list ES) : list Extractor :=
  foldl (fun extractors s => extractors ++ [extractorFrom s]) [] sources.

(** [func scalibrScanConfig(sources ...)], which returns a pointer to a
    [scalibr.ScanConfig] and an error; it has no failing path.  The call
    [extractorsFrom(sources)] passes the slice as the one variadic
    argument. *)
Definition scalibrScanConfig {ES : Type} (GOOS : string) (sources : list ES)
    : result ScanConfig :=
  Ok {| ScanRoots := fsRootDir GOOS;
        FilesystemExtractors := extractorsFrom [sources] |}.

(** [scalibr.New().Scan(ctx, cfg)]: the scanner, run on the host. *)
Variable Scan : ScanConfig → ScanResult.

(** [func (s *ScalibrExtractor) ExtractInventory(ctx, extractionSources...)
    ([]extractors.Inventory, error)]; here too the slice goes to
    [scalibrScanConfig] as one argument. *)
Definition ExtractInventory {ES : Type} (GOOS : string)
    (extractionSources : list ES)
    : list extractors.Inventory * option error :=
  match scalibrScanConfig GOOS [extractionSources] with
  | Err err => ([], Some err)
  | Ok cfg => deconstructScanResult (Scan cfg)
  end.
End extraction.

(** The successfully mapped records of a scan, in the spec's words: the
    items [inventoryFrom] accepts, in their order. *)
Definition accepted (ToPURL : scalibr_Inventory → result string)
    (inv : scalibr_Inventory) : option extractors.Inventory :=
  match inventoryFrom ToPURL inv with
  | Ok item => Some item
  | Err _ => None
  end.

Definition mappedRecords (ToPURL : scalibr_Inventory → result string)
    (invs : list scalibr_Inventory) : list extractors.Inventory :=
  omap (accepted ToPURL) invs.

(** A package URL constructor that never fails, for the examples. *)
Definition purlOf (inv : scalibr_Inventory) : result string :=
  Ok ("pkg:deb/" +:+ Name inv +:+ "@" +:+ Version inv).

(** A dpkg item whose architecture is spelled "noarch", and an item found
    by another extractor. *)
Definition tzdata_item : scalibr_Inventory :=
  {| Name := "tzdata"; Version := "2024a";
     Metadata := DpkgMetadata {| SourceName := "tzdata";
                                 SourceVersion := "2024a";
                                 Architecture := "noarch" |} |}.

Definition rpm_item : scalibr_Inventory :=
  {| Name := "bash"; Version := "5.1"; Metadata := OtherMetadata "rpm" |}.

Definition partial_scan : ScanResult :=
  {| ScanResult_Status := {| Status := ScanStatusPartiallySucceeded;
                             FailureReason := "timeout" |};
     Inventories := [rpm_item; tzdata_item] |}.

End scalibr.

(** ** Package [tasker] *)

(** The queue is shared by goroutines, so the package is modelled by an
    interleaving semantics: a state holds the queue, the package variable
    [once], the program point of every goroutine, and the history of what
    happened to tasks; a step is one statement of one goroutine.  The
    clients of the package are goroutines that call the package functions
    [Enqueue], one task after the other, and goroutines that call [Close].
    A task's action is opaque: it returns without touching the queue. *)

Module tasker.

(** [type task struct { run func(); name string }]; the action is named by
    a number. *)
Record task := mkTask {
  run : nat;
  name : string
}.

#[global] Instance task_eq_dec : EqDecision task.
Proof. solve_decision. Defined.

(** Who took [mx].  A [sync.Mutex] does not know its holder; the tag is
    kept for the proofs, and no step reads it. *)
Inductive holder :=
| ByEnqueue (i : nat)
| ByClose (c : nat).

#[global] Instance holder_eq_dec : EqDecision holder.
Proof. solve_decision. Defined.

(** [type TaskQueue struct { tc chan *task; wg sync.WaitGroup; mx sync.Mutex }].
    [tc] is unbuffered, so all there is to its state is whether it has been
    closed; [wg] is its counter; [mx] is free ([None]) or taken. *)
Record TaskQueue := mkTaskQueue {
  tc_closed : bool;
  wg : nat;
  mx : option holder
}.

(** [func NewTaskQueue() *TaskQueue] *)
Definition NewTaskQueue : TaskQueue :=
  {| tc_closed := false; wg := 0; mx := None |}.

(** Program points of a goroutine in the package function [Enqueue], which
    runs [once.Do(func() { go tq.Loop(ctx) })] and then the method:
    [tq.mx.Lock()], [tq.tc <- &task{...}], [tq.mx.Unlock()]. *)
Inductive enqueue_pc :=
| Enqueue_once      (* not in a call; the next call starts with once.Do *)
| Enqueue_Lock      (* in the call, before tq.mx.Lock() *)
| Enqueue_send      (* holds mx, before the send on tq.tc *)
| Enqueue_Unlock.   (* the task is handed over, before tq.mx.Unlock() *)

(** A client goroutine that enqueues the tasks [todo], the first of them in
    the current call. *)
Record producer := mkProducer {
  enqueue_at : enqueue_pc;
  todo : list task
}.

(** Program points of a goroutine that calls [Close]: [tq.mx.Lock()],
    [close(tq.tc)], [tq.wg.Wait()]. *)
Inductive close_pc :=
| Close_Lock        (* before tq.mx.Lock(), the first statement of Close *)
| Close_close       (* holds mx, before close(tq.tc) *)
| Close_Wait        (* before tq.wg.Wait() returns *)
| Close_returned.

(** Program points of a goroutine that runs [Loop]: [tq.wg.Add(1)], the
    receive of [for t := range tq.tc], [t.run()], the deferred
    [tq.wg.Done()]. *)
Inductive loop_pc :=
| Loop_Add
| Loop_range
| Loop_run (t : task)
| Loop_Done
| Loop_returned.

#[global] Instance enqueue_pc_eq_dec : EqDecision enqueue_pc.
Proof. solve_decision. Defined.
#[global] Instance close_pc_eq_dec : EqDecision close_pc.
Proof. solve_decision. Defined.
#[global] Instance loop_pc_eq_dec : EqDecision loop_pc.
Proof. solve_decision. Defined.
#[global] Instance producer_eq_dec : EqDecision producer.
Proof. solve_decision. Defined.

(** The state of the package and its clients.  [tq] and [once] are the
    package variables.  The four histories are kept for the statements:
    [submitted] lists the tasks in the order their [Enqueue] took [mx],
    [started] in the order [Loop] received them and called [run],
    [finished] in the order [run] returned, [enqueued] in the order
    [Enqueue] returned. *)
Record state := mkState {
  tq : TaskQueue;
  once : bool;
  loops : list loop_pc;
  producers : list producer;
  closers : list close_pc;
  submitted : list task;
  started : list task;
  finished : list task;
  enqueued : list task;
  panicked : bool
}.

Definition set_tq (q : TaskQueue) (s : state) : state :=
  mkState q (once s) (loops s) (producers s) (closers s)
          (submitted s) (started s) (finished s) (enqueued s) (panicked s).
Definition set_once (b : bool) (s : state) : state :=
  mkState (tq s) b (loops s) (producers s) (closers s)
          (submitted s) (started s) (finished s) (enqueued s) (panicked s).
Definition set_loops (ws : list loop_pc) (s : state) : state :=
  mkState (tq s) (once s) ws (producers s) (closers s)
          (submitted s) (started s) (finished s) (enqueued s) (panicked s).
Definition set_producers (ps : list producer) (s : state) : state :=
  mkState (tq s) (once s) (loops s) ps (closers s)
          (submitted s) (started s) (finished s) (enqueued s) (panicked s).
Definition set_closers (cs : list close_pc) (s : state) : state :=
  mkState (tq s) (once s) (loops s) (producers s) cs
          (submitted s) (started s) (finished s) (enqueued s) (panicked s).
Definition log_submitted (t : task) (s : state) : state :=
  mkState (tq s) (once s) (loops s) (producers s) (closers s)
          (submitted s ++ [t]) (started s) (finished s) (enqueued s) (panicked s).
Definition log_started (t : task) (s : state) : state :=
  mkState (tq s) (once s) (loops s) (producers s) (closers s)
          (submitted s) (started s ++ [t]) (finished s) (enqueued s) (panicked s).
Definition log_finished (t : task) (s : state) : state :=
  mkState (tq s) (once s) (loops s) (producers s) (closers s)
          (submitted s) (started s) (finished s ++ [t]) (enqueued s) (panicked s).
Definition log_enqueued (t : task) (s : state) : state :=
  mkState (tq s) (once s) (loops s) (producers s) (closers s)
          (submitted s) (started s) (finished s) (enqueued s ++ [t]) (panicked s).
(** A Go panic that nothing recovers ends the program. *)
Definition panic (s : state) : state :=
  mkState (tq s) (once s) (loops s) (producers s) (closers s)
          (submitted s) (started s) (finished s) (enqueued s) true.

Definition set_mx (h : option holder) (q : TaskQueue) : TaskQueue :=
  {| tc_closed := tc_closed q; wg := wg q; mx := h |}.
Definition set_wg (n : nat) (q : TaskQueue) : TaskQueue :=
  {| tc_closed := tc_closed q; wg := n; mx := mx q |}.
Definition set_tc_closed (b : bool) (q : TaskQueue) : TaskQueue :=
  {| tc_closed := b; wg := wg q; mx := mx q |}.

(** The statement a step executes, and the goroutine that executes it. *)
Inductive label :=
| DoOnce (i : nat)          (* producer i enters Enqueue: once.Do(...) *)
| EnqueueLock (i : nat)     (* tq.mx.Lock() returns *)
| EnqueueSend (i w : nat)   (* tq.tc <- t, received by the range of loop w *)
| EnqueueUnlock (i : nat)   (* tq.mx.Unlock(), and Enqueue returns *)
| LoopAdd (w : nat)         (* tq.wg.Add(1) *)
| LoopRan (w : nat)         (* t.run() returns *)
| LoopClosed (w : nat)      (* the range finds tq.tc closed *)
| LoopDone (w : nat)        (* deferred tq.wg.Done(), and Loop returns *)
| CloseLock (c : nat)       (* closer c, in Close: tq.mx.Lock() returns *)
| CloseClose (c : nat)      (* close(tq.tc) *)
| CloseWait (c : nat).      (* tq.wg.Wait() returns *)

(** One step.  [None] means that the goroutine is not at that statement or
    that the statement blocks: [Lock] on a taken mutex, a send with no
    receiver in its [range], [Wait] on a counter that is not zero.  A free
    mutex goes to any goroutine that is at a [Lock]: [sync.Mutex] does not
    promise to serve in the order of arrival.  The
    run-time panics of the primitives are steps to a panicked state: a
    send on a closed channel, [close] of a closed channel, [Unlock] of a
    free mutex, [Done] on a zero counter. *)
Definition step (l : label) (s : state) : option state :=
  if panicked s then None else
  match l with
  | DoOnce i =>
      match producers s !! i with
      | Some (mkProducer Enqueue_once (t :: rest)) =>
          let s' :=
            set_producers
              (<[i := mkProducer Enqueue_Lock (t :: rest)]> (producers s)) s in
          if once s then Some s'
          else Some (set_once true (set_loops (loops s ++ [Loop_Add]) s'))
      | _ => None
      end
  | EnqueueLock i =>
      match producers s !! i, mx (tq s) with
      | Some (mkProducer Enqueue_Lock (t :: rest)), None =>
          Some (log_submitted t
                 (set_tq (set_mx (Some (ByEnqueue i)) (tq s))
                    (set_producers
                       (<[i := mkProducer Enqueue_send (t :: rest)]>
                          (producers s)) s)))
      | _, _ => None
      end
  | EnqueueSend i w =>
      match producers s !! i with
      | Some (mkProducer Enqueue_send (t :: rest)) =>
          if tc_closed (tq s) then Some (panic s)
          else
            match loops s !! w with
            | Some Loop_range =>
                Some (log_started t
                       (set_loops (<[w := Loop_run t]> (loops s))
                          (set_producers
                             (<[i := mkProducer Enqueue_Unlock (t :: rest)]>
                                (producers s)) s)))
            | _ => None
            end
      | _ => None
      end
  | EnqueueUnlock i =>
      match producers s !! i with
      | Some (mkProducer Enqueue_Unlock (t :: rest)) =>
          match mx (tq s) with
          | None => Some (panic s)
          | Some _ =>
              Some (log_enqueued t
                     (set_tq (set_mx None (tq s))
                        (set_producers
                           (<[i := mkProducer Enqueue_once rest]>
                              (producers s)) s)))
          end
      | _ => None
      end
  | LoopAdd w =>
      match loops s !! w with
      | Some Loop_Add =>
          Some (set_tq (set_wg (S (wg (tq s))) (tq s))
                  (set_loops (<[w := Loop_range]> (loops s)) s))
      | _ => None
      end
  | LoopRan w =>
      match loops s !! w with
      | Some (Loop_run t) =>
          Some (log_finished t (set_loops (<[w := Loop_range]> (loops s)) s))
      | _ => None
      end
  | LoopClosed w =>
      match loops s !! w with
      | Some Loop_range =>
          if tc_closed (tq s)
          then Some (set_loops (<[w := Loop_Done]> (loops s)) s)
          else None
      | _ => None
      end
  | LoopDone w =>
      match loops s !! w with
      | Some Loop_Done =>
          match wg (tq s) with
          | O => Some (panic s)
          | S n =>
              Some (set_tq (set_wg n (tq s))
                      (set_loops (<[w := Loop_returned]> (loops s)) s))
          end
      | _ => None
      end
  | CloseLock c =>
      match closers s !! c, mx (tq s) with
      | Some Close_Lock, None =>
          Some (set_tq (set_mx (Some (ByClose c)) (tq s))
                  (set_closers (<[c := Close_close]> (closers s)) s))
      | _, _ => None
      end
  | CloseClose c =>
      match closers s !! c with
      | Some Close_close =>
          if tc_closed (tq s) then Some (panic s)
          else Some (set_tq (set_tc_closed true (tq s))
                       (set_closers (<[c := Close_Wait]> (closers s)) s))
      | _ => None
      end
  | CloseWait c =>
      match closers s !! c with
      | Some Close_Wait =>
          match wg (tq s) with
          | O => Some (set_closers (<[c := Close_returned]> (closers s)) s)
          | S _ => None
          end
      | _ => None
      end
  end.

(** A schedule, run from a state. *)
Fixpoint run_schedule (ls : list label) (s : state) : option state :=
  match ls with
  | [] => Some s
  | l :: ls' =>
      match step l s with
      | Some s' => run_schedule ls' s'
      | None => None
      end
  end.

Definition steps_to (s s' : state) : Prop := ∃ l, step l s = Some s'.

(** No statement can be executed: every goroutine has returned or blocks. *)
Definition stuck (s : state) : Prop := ∀ l, step l s = None.

(** The package at program start ([tq = NewTaskQueue()], [once] unused),
    with one client goroutine for each list of tasks in [programs] and
    [nclosers] goroutines that will call [Close]. *)
Definition initial (programs : list (list task)) (nclosers : nat) : state :=
  {| tq := NewTaskQueue;
     once := false;
     loops := [];
     producers := mkProducer Enqueue_once <$> programs;
     closers := replicate nclosers Close_Lock;
     submitted := []; started := []; finished := []; enqueued := [];
     panicked := false |}.

Definition reachable (programs : list (list task)) (nclosers : nat)
    (s : state) : Prop :=
  rtc steps_to (initial programs nclosers) s.

(** The task whose [Enqueue] holds [mx] and has not sent it yet. *)
Definition sending_of (m : option holder) (ps : list producer) : list task :=
  match m with
  | Some (ByEnqueue i) =>
      match ps !! i with
      | Some (mkProducer Enqueue_send (t :: _)) => [t]
      | _ => []
      end
  | _ => []
  end.

Definition sending (s : state) : list task :=
  sending_of (mx (tq s)) (producers s).

(** The task whose [Enqueue] has sent it and has not returned yet. *)
Definition unlocking_of (m : option holder) (ps : list producer) : list task :=
  match m with
  | Some (ByEnqueue i) =>
      match ps !! i with
      | Some (mkProducer Enqueue_Unlock (t :: _)) => [t]
      | _ => []
      end
  | _ => []
  end.

Definition unlocking (s : state) : list task :=
  unlocking_of (mx (tq s)) (producers s).

(** The tasks whose action is running. *)
Definition running_of (w : loop_pc) : list task :=
  match w with
  | Loop_run t => [t]
  | _ => []
  end.

Definition running (s : state) : list task :=
  concat (running_of <$> loops s).

(** A [Loop] that has added itself to [wg] and not yet taken itself off. *)
Definition counted (w : loop_pc) : bool :=
  match w with
  | Loop_range | Loop_run _ | Loop_Done => true
  | _ => false
  end.

Definition holdsEnqueue (pc : enqueue_pc) : Prop :=
  pc = Enqueue_send ∨ pc = Enqueue_Unlock.

Definition holdsClose (pc : close_pc) : Prop :=
  pc = Close_close ∨ pc = Close_Wait ∨ pc = Close_returned.

Definition closedBy (pc : close_pc) : Prop :=
  pc = Close_Wait ∨ pc = Close_returned.

(** A producer that is not in a call, or waits for [mx] in one. *)
Definition beforeLock (pc : enqueue_pc) : Prop :=
  pc = Enqueue_once ∨ pc = Enqueue_Lock.

(** A bound on the number of steps left. *)
Definition producer_weight (p : producer) : nat :=
  8 * length (todo p) +
  match enqueue_at p with
  | Enqueue_once => 8
  | Enqueue_Lock => 4
  | Enqueue_send => 3
  | Enqueue_Unlock => 1
  end.

Definition loop_weight (w : loop_pc) : nat :=
  match w with
  | Loop_Add => 3
  | Loop_run _ => 3
  | Loop_range => 2
  | Loop_Done => 1
  | Loop_returned => 0
  end.

Definition close_weight (c : close_pc) : nat :=
  match c with
  | Close_Lock => 3
  | Close_close => 2
  | Close_Wait => 1
  | Close_returned => 0
  end.

Definition weight (s : state) : nat :=
  sum_list (producer_weight <$> producers s) +
  sum_list (loop_weight <$> loops s) +
  sum_list (close_weight <$> closers s) +
  (if panicked s then 0 else 1) +
  (if once s then 0 else 3).

(** Example tasks and schedules. *)
Definition t1 : task := {| run := 1; name := "inventory" |}.
Definition t2 : task := {| run := 2; name := "patch" |}.

(** One goroutine enqueues [t1] and [t2], another closes the queue when
    both calls have returned. *)
Definition schedule_drain : list label :=
  [ DoOnce 0; EnqueueLock 0; LoopAdd 0; EnqueueSend 0 0; EnqueueUnlock 0;
    DoOnce 0; EnqueueLock 0; LoopRan 0; EnqueueSend 0 0; EnqueueUnlock 0 ].

Definition schedule_close : list label :=
  [ CloseLock 0; CloseClose 0; LoopRan 0; LoopClosed 0; LoopDone 0;
    CloseWait 0 ].

(** Producer 0 holds [mx], so a [Close] has to wait at its [Lock];
    producer 1 then calls [Enqueue] and takes [mx] before the closer. *)
Definition schedule_race_before : list label :=
  [ DoOnce 0; EnqueueLock 0 ].

(** A closer takes [mx] first; the producer calls [Enqueue] after that,
    and [Close] returns before the loop has started. *)
Definition schedule_close_first : list label :=
  [ CloseLock 0 ].

Definition schedule_late_enqueue : list label :=
  [ DoOnce 0; CloseClose 0; CloseWait 0; LoopAdd 0; LoopClosed 0; LoopDone 0 ].

Definition schedule_race_after : list label :=
  [ DoOnce 1; LoopAdd 0; EnqueueSend 0 0; EnqueueUnlock 0;
    EnqueueLock 1; LoopRan 0; EnqueueSend 1 0; EnqueueUnlock 1; LoopRan 0 ].

(** The goroutines of a state are those of the program, and a producer
    inside a call has the task of that call. *)
Definition shaped (programs : list (list task)) (nclosers : nat)
    (s : state) : Prop :=
  length (producers s) = length programs ∧
  length (closers s) = nclosers ∧
  ∀ i p, producers s !! i = Some p →
    enqueue_at p ≠ Enqueue_once → todo p ≠ [].

(** The one producer of a state has enqueued a first part of [ts] and has
    the rest to do. *)
Definition follows (ts : list task) (s : state) : Prop :=
  ∃ p, producers s = [p] ∧ ts = enqueued s ++ todo p.

(** The state a schedule leads to ([s] itself when it cannot be run). *)
Definition state_after (ls : list label) (s : state) : state :=
  default s (run_schedule ls s).

(** What holds in every state the package can reach. *)
Record inv (s : state) : Prop := mkInv {
  inv_alive : panicked s = false;
  inv_loops : length (loops s) ≤ 1;
  inv_once : once s = false → loops s = [];
  inv_spawned : once s = true → loops s ≠ [];
  inv_called : ∀ i p, producers s !! i = Some p →
    enqueue_at p ≠ Enqueue_once → once s = true;
  inv_mx_enqueue : ∀ i p, producers s !! i = Some p →
    holdsEnqueue (enqueue_at p) → mx (tq s) = Some (ByEnqueue i);
  inv_mx_close : ∀ c pc, closers s !! c = Some pc →
    holdsClose pc → mx (tq s) = Some (ByClose c);
  inv_mx_held : ∀ h, mx (tq s) = Some h →
    match h with
    | ByEnqueue i =>
        ∃ p, producers s !! i = Some p ∧ holdsEnqueue (enqueue_at p)
    | ByClose c => ∃ pc, closers s !! c = Some pc ∧ holdsClose pc
    end;
  inv_closed : tc_closed (tq s) = true ↔
    ∃ c pc, closers s !! c = Some pc ∧ closedBy pc;
  inv_wg : wg (tq s) = length (filter (fun w => counted w = true) (loops s));
  inv_loop_closed : ∀ w pc, loops s !! w = Some pc →
    pc = Loop_Done ∨ pc = Loop_returned → tc_closed (tq s) = true;
  inv_submitted : submitted s = started s ++ sending s;
  inv_started : started s = finished s ++ running s;
  inv_enqueued : started s = enqueued s ++ unlocking s;
  inv_returned : ∀ c, closers s !! c = Some Close_returned → running s = []
}.

End tasker.

Module packages_facts.
Import packages.

Lemma compareExtractedPackages_returns legacy modern :
  compareReturns legacy modern (compareExtractedPackages legacy modern).
Proof. constructor; unfold rangeOrder; reflexivity. Qed.

(** The loop is a filter on the visited entries. *)
Lemma extraLoop_acc (visited : list (pkgkey * PkgInfo))
    (other : gmap pkgkey PkgInfo) (acc : list PkgInfo) :
  foldl (fun extra '(k, pkg) =>
           match other !! k with
           | None => extra ++ [pkg]
           | Some _ => extra
           end) acc visited =
  acc ++ (filter (fun kv => other !! kv.1 = None) visited).*2.
Proof.
  revert acc.
  induction visited as [|[k p] visited IH]; intros acc; simpl.
  - by rewrite app_nil_r.
  - rewrite IH, filter_cons. simpl.
    destruct (other !! k) eqn:E; simpl; [done|].
    by rewrite <- app_assoc.
Qed.

Lemma extraLoop_filter (visited : list (pkgkey * PkgInfo))
    (other : gmap pkgkey PkgInfo) :
  extraLoop visited other =
  (filter (fun kv => other !! kv.1 = None) visited).*2.
Proof. unfold extraLoop. by rewrite extraLoop_acc. Qed.

(** *** The index *)

Lemma indexByKey_snoc l p :
  indexByKey (l ++ [p]) = <[key p := p]> (indexByKey l).
Proof. unfold indexByKey. by rewrite foldl_app. Qed.

(** An entry of the index is a record of the inventory, filed under its
    own key. *)
Lemma indexByKey_Some l k p :
  indexByKey l !! k = Some p → key p = k ∧ p ∈ l.
Proof.
  revert k p. induction l as [|q l IH] using rev_ind; intros k p.
  - unfold indexByKey. simpl. by rewrite lookup_empty.
  - rewrite indexByKey_snoc, lookup_insert. case_decide as Hk.
    + intros [= ->]. split; [done|]. set_solver.
    + intros [? ?]%IH. split; [done|]. set_solver.
Qed.

(** The keys of the index are the keys that occur in the inventory. *)
Lemma indexByKey_is_Some l k :
  is_Some (indexByKey l !! k) ↔ k ∈ key <$> l.
Proof.
  induction l as [|q l IH] using rev_ind.
  - unfold indexByKey. simpl. rewrite lookup_empty.
    split; [by intros [? ?]|set_solver].
  - rewrite indexByKey_snoc, lookup_insert, fmap_app. simpl.
    case_decide as Hk.
    + split; [set_solver|eauto].
    + rewrite IH. set_solver.
Qed.

Lemma indexByKey_None l k :
  indexByKey l !! k = None ↔ k ∉ key <$> l.
Proof. rewrite <- indexByKey_is_Some, eq_None_not_Some. done. Qed.

Lemma indexByKey_None_perm l l' k :
  l ≡ₚ l' → indexByKey l !! k = None ↔ indexByKey l' !! k = None.
Proof. intros Hp. rewrite !indexByKey_None. by rewrite Hp. Qed.

Lemma indexByKey_consistent l k p :
  keyConsistent l → indexByKey l !! k = Some p ↔ key p = k ∧ p ∈ l.
Proof.
  intros Hc. split; [apply indexByKey_Some|].
  intros [<- Hp].
  destruct (indexByKey l !! key p) as [q|] eqn:E.
  - apply indexByKey_Some in E as [Hk Hq]. f_equal. by apply Hc.
  - apply indexByKey_None in E. set_solver.
Qed.

Lemma indexByKey_perm l l' :
  keyConsistent l → l ≡ₚ l' → indexByKey l = indexByKey l'.
Proof.
  intros Hc Hp.
  assert (keyConsistent l') as Hc'.
  { intros p q Hp1 Hq1. rewrite <- Hp in Hp1, Hq1. by apply Hc. }
  apply map_eq. intros k. apply option_eq. intros p.
  rewrite !indexByKey_consistent by done. by rewrite Hp.
Qed.

(** *** The extra lists *)

Lemma extraLoop_perm (lo lo' : list (pkgkey * PkgInfo)) other :
  lo ≡ₚ lo' → extraLoop lo other ≡ₚ extraLoop lo' other.
Proof. intros Hp. rewrite !extraLoop_filter. by rewrite Hp. Qed.

(** The keys of the records a loop over the index of [l] reports. *)
Lemma extraLoop_keys l lo other :
  rangeOrder (indexByKey l) lo →
  key <$> extraLoop lo other =
  (filter (fun kv => other !! kv.1 = None) lo).*1.
Proof.
  unfold rangeOrder. intros Hp.
  assert (∀ kv, kv ∈ lo → key kv.2 = kv.1) as Hkeys.
  { intros [k p]. rewrite Hp, elem_of_map_to_list.
    by intros [? ?]%indexByKey_Some. }
  rewrite extraLoop_filter. clear Hp.
  induction lo as [|[k p] lo IH]; [done|].
  rewrite filter_cons. simpl.
  assert (key p = k) as Hk by (apply (Hkeys (k, p)); set_solver).
  assert (∀ kv, kv ∈ lo → key kv.2 = kv.1) as Hlo
    by (intros; apply Hkeys; set_solver).
  case_decide; simpl; rewrite ?Hk; [f_equal|]; by apply IH.
Qed.

Lemma extra_keys_NoDup (m : gmap pkgkey PkgInfo) lo
    (P : pkgkey * PkgInfo → Prop) `{!∀ kv, Decision (P kv)} :
  lo ≡ₚ map_to_list m → NoDup (filter P lo).*1.
Proof.
  intros Hp. apply (sublist_NoDup _ lo.*1).
  - rewrite Hp. apply (NoDup_fst_map_to_list m).
  - apply fmap_sublist, sublist_filter.
Qed.

Lemma extra_keys_elem (m other : gmap pkgkey PkgInfo) lo k :
  lo ≡ₚ map_to_list m →
  k ∈ (filter (fun kv => other !! kv.1 = None) lo).*1 ↔
  is_Some (m !! k) ∧ other !! k = None.
Proof.
  intros Hp. rewrite list_elem_of_fmap. split.
  - intros ([k' p] & -> & [Hn Hin]%list_elem_of_filter).
    rewrite Hp, elem_of_map_to_list in Hin. eauto.
  - intros [[p Hm] Hn]. exists (k, p). split; [done|].
    apply list_elem_of_filter. split; [done|].
    by rewrite Hp, elem_of_map_to_list.
Qed.

(** *** Results of the comparison *)

Lemma compareReturns_inv legacy modern r :
  compareReturns legacy modern r →
  legacyExtractorItemsCount r = length legacy ∧
  modernExtractorItemsCount r = length modern ∧
  legacyExtractorExtra r ≡ₚ
    extraLoop (map_to_list (indexByKey legacy)) (indexByKey modern) ∧
  modernExtractorExtra r ≡ₚ
    extraLoop (map_to_list (indexByKey modern)) (indexByKey legacy).
Proof.
  intros [lo mo Hlo Hmo]. simpl. repeat split; by apply extraLoop_perm.
Qed.

Lemma comparisonResults_eq r c1 c2 e1 e2 :
  legacyExtractorItemsCount r = c1 → modernExtractorItemsCount r = c2 →
  legacyExtractorExtra r = e1 → modernExtractorExtra r = e2 →
  r = mkComparisonResults c1 c2 e1 e2.
Proof. destruct r. simpl. by intros -> -> -> ->. Qed.

(** C5: the two counts of a comparison are the lengths of the two input
    lists; on the spec's example (legacy [a x86_64 1.0], modern that record
    and [b noarch 2.0]) every run returns legacy-extra empty, modern-extra
    the one record [b noarch 2.0], legacy-count 1 and modern-count 2; and
    a count can differ from the size of the index, as for an inventory
    that lists one record twice. *)
Theorem compare_counts_are_raw_lengths :
  (∀ legacy modern r, compareReturns legacy modern r →
     legacyExtractorItemsCount r = length legacy ∧
     modernExtractorItemsCount r = length modern) ∧
  (∀ r, compareReturns example_legacy example_modern r →
     r = {| legacyExtractorItemsCount := 1;
            modernExtractorItemsCount := 2;
            legacyExtractorExtra := [];
            modernExtractorExtra := [pkg "b" "noarch" "2.0"] |}) ∧
  (legacyExtractorItemsCount
     (compareExtractedPackages (example_legacy ++ example_legacy) []) = 2 ∧
   size (indexByKey (example_legacy ++ example_legacy)) = 1).
Proof.
  split; [|split].
  - intros legacy modern r (? & ? & _)%compareReturns_inv. done.
  - intros r (Hc1 & Hc2 & He1 & He2)%compareReturns_inv.
    apply comparisonResults_eq; [done|done| |].
    + apply Permutation_nil_r. rewrite He1. by vm_compute.
    + apply Permutation_singleton_r. rewrite He2. by vm_compute.
  - split; by vm_compute.
Qed.

Lemma compare_counts_are_raw_lengths_witness :
  compareExtractedPackages example_legacy example_modern =
  {| legacyExtractorItemsCount := 1;
     modernExtractorItemsCount := 2;
     legacyExtractorExtra := [];
     modernExtractorExtra := [pkg "b" "noarch" "2.0"] |}.
Proof.
  destruct compare_counts_are_raw_lengths as (_ & Hex & _).
  apply Hex. constructor; unfold rangeOrder; reflexivity.
Defined.

(** C6: the comparison is symmetric in its arguments: the records
    [Compare(A, B)] reports as legacy-extra are, up to the order of the
    list, the records [Compare(B, A)] reports as modern-extra. *)
Theorem compare_symmetric A B r1 r2 :
  compareReturns A B r1 → compareReturns B A r2 →
  legacyExtractorExtra r1 ≡ₚ modernExtractorExtra r2.
Proof.
  intros (_ & _ & H1 & _)%compareReturns_inv
         (_ & _ & _ & H2)%compareReturns_inv.
  by rewrite H1, H2.
Qed.

Lemma compare_symmetric_witness :
  legacyExtractorExtra (compareExtractedPackages example_modern example_legacy)
  ≡ₚ modernExtractorExtra (compareExtractedPackages example_legacy example_modern).
Proof.
  apply (compare_symmetric example_modern example_legacy);
    apply compareExtractedPackages_returns.
Defined.

(** C7: the comparison is pure and does not depend on the order of its
    inputs.  For all inventories, every reordering of each, and every
    order in which the two indexes are iterated, the counts are the same
    and the two extra lists hold the same identity keys, up to the order
    of the lists; so the extra sets, whose records are told apart by their
    identity key, are the same, also when an inventory holds several
    records under one key.  When no inventory holds two different records
    under one key, the extra records agree in their other fields too. *)
Theorem compare_reorder A A' B B' r r' :
  A ≡ₚ A' → B ≡ₚ B' →
  compareReturns A B r → compareReturns A' B' r' →
  legacyExtractorItemsCount r = legacyExtractorItemsCount r' ∧
  modernExtractorItemsCount r = modernExtractorItemsCount r' ∧
  key <$> legacyExtractorExtra r ≡ₚ key <$> legacyExtractorExtra r' ∧
  key <$> modernExtractorExtra r ≡ₚ key <$> modernExtractorExtra r' ∧
  (keyConsistent A → keyConsistent B →
   legacyExtractorExtra r ≡ₚ legacyExtractorExtra r' ∧
   modernExtractorExtra r ≡ₚ modernExtractorExtra r').
Proof.
  intros HA HB Hr Hr'.
  assert (∀ X X' Y Y' lo lo', X ≡ₚ X' → Y ≡ₚ Y' →
            rangeOrder (indexByKey X) lo → rangeOrder (indexByKey X') lo' →
            key <$> extraLoop lo (indexByKey Y) ≡ₚ
            key <$> extraLoop lo' (indexByKey Y')) as Hkeys.
  { intros X X' Y Y' lo lo' HX HY Hlo Hlo'.
    rewrite (extraLoop_keys X), (extraLoop_keys X') by done.
    apply NoDup_Permutation; [by eapply extra_keys_NoDup..|].
    intros k. rewrite !extra_keys_elem by done.
    rewrite !indexByKey_is_Some, (indexByKey_None_perm Y Y') by done.
    by rewrite HX. }
  split; [|split; [|split; [|split]]].
  - destruct Hr, Hr'. simpl. by rewrite HA.
  - destruct Hr, Hr'. simpl. by rewrite HB.
  - destruct Hr, Hr'. simpl. by apply (Hkeys A A' B B').
  - destruct Hr, Hr'. simpl. by apply (Hkeys B B' A A').
  - intros HcA HcB.
    apply compareReturns_inv in Hr as (_ & _ & Hl & Hm).
    apply compareReturns_inv in Hr' as (_ & _ & Hl' & Hm').
    rewrite Hl, Hm, Hl', Hm'.
    by rewrite <- (indexByKey_perm A A'), <- (indexByKey_perm B B').
Qed.

Lemma compare_reorder_witness :
  key <$> legacyExtractorExtra
            (compareExtractedPackages [tzdata_rpm; tzdata_deb] []) ≡ₚ
  key <$> legacyExtractorExtra
            (compareExtractedPackages [tzdata_deb; tzdata_rpm] []).
Proof.
  destruct (compare_reorder [tzdata_rpm; tzdata_deb] [tzdata_deb; tzdata_rpm]
              [] []
              (compareExtractedPackages [tzdata_rpm; tzdata_deb] [])
              (compareExtractedPackages [tzdata_deb; tzdata_rpm] []))
    as (_ & _ & Hk & _);
    [apply perm_swap|reflexivity|apply compareExtractedPackages_returns..|].
  exact Hk.
Defined.

End packages_facts.

(** ** The report: facts *)

Module report_facts.
Import packages gojson report.

Lemma comparisonResults_no_candidates r :
  candidateFields (comparisonResults_fields r) = [].
Proof. reflexivity. Qed.

(** With capitalised names the two extra lists are written, and the two
    counts hide each other under their common tag. *)
Lemma exportedResults_members (r : comparisonResults) :
  marshalStruct (exportedResults_fields r) =
  JObject [("legacy_extractor_extra", PkgInfos_json (legacyExtractorExtra r));
           ("new_extractor_extra", PkgInfos_json (modernExtractorExtra r))].
Proof. reflexivity. Qed.

(** C9: whatever the counts and the extra lists of a comparison result,
    the JSON text [printComparisonResult] logs for it is the empty object
    [{}]: none of the four fields of [comparisonResults] is exported, so
    the encoder writes no member (and the two count fields carry one and
    the same tag); the logged report holds no comparison data. *)
Theorem printComparisonResult_empty_object quote (r : comparisonResults) :
  printComparisonResult quote r =
    [ Infof "Comparison results after inventory extraction"; Infof "{}" ] ∧
  marshalStruct (comparisonResults_fields r) = JObject [] ∧
  Forall (fun f => isExported (goName f) = false) (comparisonResults_fields r) ∧
  jsonTag <$> comparisonResults_fields r !! 0%nat =
  jsonTag <$> comparisonResults_fields r !! 1%nat.
Proof.
  repeat split.
  repeat constructor.
Qed.

End report_facts.

(** ** The structured extractor: facts *)

Module scalibr_facts.
Import scalibr.

Section extraction.
Variable ToPURL : scalibr_Inventory → result string.

Lemma mapInventories_acc invs acc :
  foldl (fun inventories inv =>
           match inventoryFrom ToPURL inv with
           | Err _ => inventories
           | Ok item => inventories ++ [item]
           end) acc invs = acc ++ omap (accepted ToPURL) invs.
Proof.
  revert acc. induction invs as [|inv invs IH]; intros acc; simpl.
  - by rewrite app_nil_r.
  - rewrite IH. unfold accepted at 2.
    destruct (inventoryFrom ToPURL inv); [|done].
    by rewrite <- app_assoc.
Qed.

(** The loop returns the successfully mapped records. *)
Lemma mapInventories_mappedRecords invs :
  mapInventories ToPURL invs = mappedRecords ToPURL invs.
Proof. unfold mapInventories. by rewrite mapInventories_acc. Qed.

Lemma mappedRecords_app l1 l2 :
  mappedRecords ToPURL (l1 ++ l2) =
  mappedRecords ToPURL l1 ++ mappedRecords ToPURL l2.
Proof. apply omap_app. Qed.

Lemma mappedRecords_skip before inv after e :
  inventoryFrom ToPURL inv = Err e →
  mappedRecords ToPURL (before ++ inv :: after) =
  mappedRecords ToPURL before ++ mappedRecords ToPURL after.
Proof.
  intros He. rewrite mappedRecords_app. f_equal.
  unfold mappedRecords, accepted. simpl. by rewrite He.
Qed.

Lemma deconstructScanResult_records results :
  Status (ScanResult_Status results) ≠ ScanStatusFailed →
  (deconstructScanResult ToPURL results).1 =
  mappedRecords ToPURL (Inventories results).
Proof.
  intros Hs. unfold deconstructScanResult.
  rewrite decide_False by done.
  case_decide; simpl; apply mapInventories_mappedRecords.
Qed.

Lemma inventoryFrom_Ok_dpkg inv item :
  inventoryFrom ToPURL inv = Ok item → isDpkg (Metadata inv).
Proof. unfold inventoryFrom. by destruct (Metadata inv). Qed.
End extraction.

(** C4: for every scan result, on the failed status the extraction
    returns no record and an error; on any other status it returns the
    successfully mapped records, with an error when the status is not
    "succeeded" (partial failure) and without one when it is; an item
    whose metadata cannot be mapped is passed over and the records mapped
    from the items before and after it are still returned; and
    [ExtractInventory] returns what [deconstructScanResult] makes of the
    scanner's result. *)
Theorem deconstructScanResult_outcomes ToPURL (results : ScanResult) :
  let st := ScanResult_Status results in
  (Status st = ScanStatusFailed →
   deconstructScanResult ToPURL results =
   ([], Some ("scan failed, failure reason: " +:+ FailureReason st))) ∧
  (Status st ≠ ScanStatusFailed → Status st ≠ ScanStatusSucceeded →
   deconstructScanResult ToPURL results =
   (mappedRecords ToPURL (Inventories results),
    Some ("scan partially failed, failure reason: " +:+ FailureReason st))) ∧
  (Status st = ScanStatusSucceeded →
   deconstructScanResult ToPURL results =
   (mappedRecords ToPURL (Inventories results), None)) ∧
  (∀ before inv after e,
     Status st ≠ ScanStatusFailed →
     Inventories results = before ++ inv :: after →
     inventoryFrom ToPURL inv = Err e →
     (deconstructScanResult ToPURL results).1 =
     mappedRecords ToPURL before ++ mappedRecords ToPURL after) ∧
  (∀ (ES : Type) Scan GOOS (sources : list ES),
     Scan {| ScanRoots := fsRootDir GOOS;
             FilesystemExtractors := [DpkgExtractor] |} = results →
     ExtractInventory ToPURL Scan GOOS sources =
     deconstructScanResult ToPURL results).
Proof.
  intros st. subst st. repeat split.
  - intros Hs. unfold deconstructScanResult. by rewrite decide_True.
  - intros Hf Hs. unfold deconstructScanResult.
    rewrite decide_False, decide_True by done.
    by rewrite mapInventories_mappedRecords.
  - intros Hs. unfold deconstructScanResult.
    rewrite decide_False by (by rewrite Hs).
    rewrite decide_False by (by intros []).
    by rewrite mapInventories_mappedRecords.
  - intros before inv after e Hf Hinv He.
    rewrite deconstructScanResult_records, Hinv by done.
    by eapply mappedRecords_skip.
  - intros ES Scan GOOS sources <-. reflexivity.
Qed.

Lemma deconstructScanResult_outcomes_witness :
  deconstructScanResult purlOf partial_scan =
  (mappedRecords purlOf [rpm_item; tzdata_item],
   Some "scan partially failed, failure reason: timeout") ∧
  (deconstructScanResult purlOf partial_scan).1 =
  mappedRecords purlOf [] ++ mappedRecords purlOf [tzdata_item].
Proof.
  destruct (deconstructScanResult_outcomes purlOf partial_scan)
    as (_ & Hpartial & _ & Hskip & _).
  split.
  - apply Hpartial; simpl; discriminate.
  - apply (Hskip [] rpm_item [tzdata_item] "unsupported inventory item");
      [simpl; discriminate|reflexivity|reflexivity].
Defined.

(** C10: an item whose metadata is not dpkg's makes [inventoryFrom] return
    an error, and the extraction result is the one the scan would give
    without the item; an item [inventoryFrom] accepts has dpkg metadata. *)
Theorem inventoryFrom_unsupported ToPURL (inv : scalibr_Inventory) :
  ¬ isDpkg (Metadata inv) →
  inventoryFrom ToPURL inv = Err "unsupported inventory item" ∧
  (∀ st before after,
     deconstructScanResult ToPURL
       {| ScanResult_Status := st; Inventories := before ++ inv :: after |} =
     deconstructScanResult ToPURL
       {| ScanResult_Status := st; Inventories := before ++ after |}) ∧
  (∀ inv' item, inventoryFrom ToPURL inv' = Ok item → isDpkg (Metadata inv')).
Proof.
  intros Hnd.
  assert (inventoryFrom ToPURL inv = Err "unsupported inventory item") as He.
  { unfold inventoryFrom. by destruct (Metadata inv). }
  split; [done|]. split; [|apply inventoryFrom_Ok_dpkg].
  intros st before after. unfold deconstructScanResult. simpl.
  rewrite !mapInventories_mappedRecords.
  by rewrite (mappedRecords_skip _ _ _ _ _ He), mappedRecords_app.
Qed.

Lemma inventoryFrom_unsupported_witness :
  inventoryFrom purlOf rpm_item = Err "unsupported inventory item" ∧
  deconstructScanResult purlOf partial_scan =
  deconstructScanResult purlOf
    {| ScanResult_Status := ScanResult_Status partial_scan;
       Inventories := [tzdata_item] |}.
Proof.
  destruct (inventoryFrom_unsupported purlOf rpm_item) as (He & Hdrop & _);
    [simpl; tauto|].
  split; [exact He|].
  exact (Hdrop (ScanResult_Status partial_scan) [] [tzdata_item]).
Defined.

(** C8 does not hold as stated: the record the structured path builds
    from a dpkg item spelled "noarch" has an empty raw architecture, not
    the canonical token, and the record type has no other architecture
    field. *)
Lemma modern_record_arch_not_normalized :
  inventoryFrom purlOf tzdata_item =
    Ok {| extractors.Name := "tzdata";
          extractors.Version := "2024a";
          extractors.RawArch := "";
          extractors.Inventory_Source :=
            {| extractors.Source_Name := "tzdata";
               extractors.Source_Version := "2024a" |};
          extractors.Purl := "pkg:deb/tzdata@2024a" |} ∧
  packages.NormalizeArchitecture "noarch" = "all" ∧
  ¬ ∀ ToPURL inv md item,
      Metadata inv = DpkgMetadata md →
      inventoryFrom ToPURL inv = Ok item →
      extractors.RawArch item = packages.NormalizeArchitecture (Architecture md).
Proof.
  split; [reflexivity|]. split; [reflexivity|].
  intros H.
  specialize (H purlOf tzdata_item _ _ eq_refl eq_refl). discriminate.
Qed.

(** C8, as the code has it: on the legacy dpkg path the record
    construction stores the normalized architecture in the record's [Arch]
    field, which is the architecture of its identity key; the spellings
    "noarch" and "all" both give "all", so two metadata records that differ
    in these spellings only get one key. *)
Theorem legacy_record_arch_normalized (pm : packages.packageMetadata) :
  packages.Arch (packages.pkgInfoFromPackageMetadata pm) =
    packages.NormalizeArchitecture (packages.Architecture pm) ∧
  packages.key (packages.pkgInfoFromPackageMetadata pm) =
    (packages.Package pm,
     packages.NormalizeArchitecture (packages.Architecture pm),
     packages.pm_Version pm) ∧
  (packages.Architecture pm = "noarch" ∨ packages.Architecture pm = "all" →
   packages.Arch (packages.pkgInfoFromPackageMetadata pm) = "all").
Proof.
  repeat split. intros [H|H]; simpl; by rewrite H.
Qed.

Lemma legacy_record_arch_normalized_witness :
  packages.Arch (packages.pkgInfoFromPackageMetadata
    (packages.mkPackageMetadata "tzdata" "noarch" "2024a" "installed"
       "tzdata" "2024a")) = "all".
Proof.
  destruct (legacy_record_arch_normalized
    (packages.mkPackageMetadata "tzdata" "noarch" "2024a" "installed"
       "tzdata" "2024a")) as (_ & _ & H).
  apply H. left. reflexivity.
Defined.

End scalibr_facts.

(** ** The task queue: facts *)

Module tasker_facts.
Import tasker.

Lemma run_schedule_rtc ls s s' :
  run_schedule ls s = Some s' → rtc steps_to s s'.
Proof.
  revert s. induction ls as [|l ls IH]; intros s; simpl.
  - intros [= ->]. constructor.
  - destruct (step l s) as [s1|] eqn:E; [|done].
    intros H. eapply rtc_l; [by exists l|by apply IH].
Qed.

Lemma single_lookup {A} (l : list A) w x :
  length l ≤ 1 → l !! w = Some x → w = 0 ∧ l = [x].
Proof.
  destruct l as [|y [|z l]]; simpl; intros Hl Hw; try lia; [done|].
  destruct w; simpl in Hw; by simplify_eq.
Qed.

Lemma initial_inv programs n : inv (initial programs n).
Proof.
  constructor; simpl; try done.
  - lia.
  - intros i p [ts [-> _]]%list_lookup_fmap_Some. done.
  - intros i p [ts [-> _]]%list_lookup_fmap_Some [|]; done.
  - intros c pc [-> _]%lookup_replicate [|[|]]; done.
  - split; [done|]. intros (c & pc & [-> _]%lookup_replicate & [|]); done.
Qed.


(** *** Consequences of the invariant *)

Lemma holders_exclusive s i p c pc :
  inv s → producers s !! i = Some p → holdsEnqueue (enqueue_at p) →
  closers s !! c = Some pc → holdsClose pc → False.
Proof.
  intros Hinv Hp Hhp Hc Hhc.
  pose proof (inv_mx_enqueue s Hinv i p Hp Hhp) as H1.
  pose proof (inv_mx_close s Hinv c pc Hc Hhc) as H2.
  congruence.
Qed.

Lemma holder_open s i p :
  inv s → producers s !! i = Some p → holdsEnqueue (enqueue_at p) →
  tc_closed (tq s) = false.
Proof.
  intros Hinv Hp Hhp. apply not_true_is_false. intros Hcl.
  apply (inv_closed s Hinv) in Hcl as (c & pc & Hc & Hpc).
  eapply holders_exclusive; eauto.
  destruct Hpc as [->| ->]; unfold holdsClose; auto.
Qed.

Lemma closer_holds_unique s c c' pc pc' :
  inv s → closers s !! c = Some pc → holdsClose pc →
  closers s !! c' = Some pc' → holdsClose pc' → c = c'.
Proof.
  intros Hinv Hc Hh Hc' Hh'.
  pose proof (inv_mx_close s Hinv c pc Hc Hh) as H1.
  pose proof (inv_mx_close s Hinv c' pc' Hc' Hh') as H2.
  congruence.
Qed.

Lemma free_no_holder s :
  inv s → mx (tq s) = None →
  (∀ i p, producers s !! i = Some p → ¬ holdsEnqueue (enqueue_at p)) ∧
  (∀ c pc, closers s !! c = Some pc → ¬ holdsClose pc).
Proof.
  intros Hinv Hfree. split.
  - intros i p Hp Hh. pose proof (inv_mx_enqueue s Hinv i p Hp Hh). congruence.
  - intros c pc Hc Hh. pose proof (inv_mx_close s Hinv c pc Hc Hh). congruence.
Qed.

(** *** The histories under updates *)

Lemma sending_of_insert m ps i p p' :
  ps !! i = Some p →
  enqueue_at p ≠ Enqueue_send → enqueue_at p' ≠ Enqueue_send →
  sending_of m (<[i := p']> ps) = sending_of m ps.
Proof.
  intros Hp Hn Hn'. unfold sending_of.
  destruct m as [[j|c]|]; [|done..].
  destruct (decide (j = i)) as [->|Hne].
  - rewrite list_lookup_insert_eq by (by eapply lookup_lt_Some).
    rewrite Hp. destruct p as [[] ?], p' as [[] ?]; simpl in *; done.
  - by rewrite list_lookup_insert_ne.
Qed.

Lemma unlocking_of_insert m ps i p p' :
  ps !! i = Some p →
  enqueue_at p ≠ Enqueue_Unlock → enqueue_at p' ≠ Enqueue_Unlock →
  unlocking_of m (<[i := p']> ps) = unlocking_of m ps.
Proof.
  intros Hp Hn Hn'. unfold unlocking_of.
  destruct m as [[j|c]|]; [|done..].
  destruct (decide (j = i)) as [->|Hne].
  - rewrite list_lookup_insert_eq by (by eapply lookup_lt_Some).
    rewrite Hp. destruct p as [[] ?], p' as [[] ?]; simpl in *; done.
  - by rewrite list_lookup_insert_ne.
Qed.

Ltac split_inv Hinv :=
  pose proof Hinv as
    [Halive Hloops Honce Hspawned Hcalled Hmxe Hmxc Hheld Hclosed Hwg
       Hlc Hsub Hsta Henq Hret].

Ltac lookup_insert_cases H :=
  apply list_lookup_insert_Some in H as [(<- & <- & ?)|(? & H)].

Lemma running_app ws ws' :
  concat (running_of <$> (ws ++ ws')) =
  concat (running_of <$> ws) ++ concat (running_of <$> ws').
Proof. by rewrite fmap_app, concat_app. Qed.

(** Goals about one goroutine after [producers] or [closers] was updated
    at one index: the updated goroutine, or another one. *)
Ltac pcases :=
  let j := fresh "j" in let p := fresh "p" in
  let Hj := fresh "Hj" in let Hh := fresh "Hh" in
  intros j p Hj Hh; lookup_insert_cases Hj; simpl in *.

Ltac ccases :=
  let j := fresh "c" in let p := fresh "pc" in
  let Hj := fresh "Hc" in let Hh := fresh "Hh" in
  intros j p Hj Hh; lookup_insert_cases Hj; simpl in *.

(** The holder of [mx] is still there after a goroutine that keeps what it
    holds has moved. *)
Lemma held_insert_producer s i p p' h :
  inv s → producers s !! i = Some p →
  (holdsEnqueue (enqueue_at p) → holdsEnqueue (enqueue_at p')) →
  mx (tq s) = Some h →
  match h with
  | ByEnqueue j =>
      ∃ q, <[i := p']> (producers s) !! j = Some q ∧ holdsEnqueue (enqueue_at q)
  | ByClose c => ∃ pc, closers s !! c = Some pc ∧ holdsClose pc
  end.
Proof.
  intros Hinv Hp Hn Hh. pose proof (inv_mx_held s Hinv h Hh) as Hheld.
  destruct h as [j|c]; [|done].
  destruct Hheld as (q & Hq & Hhq).
  destruct (decide (j = i)) as [->|Hne].
  - exists p'. rewrite list_lookup_insert_eq by (by eapply lookup_lt_Some).
    split; [done|]. apply Hn. congruence.
  - exists q. by rewrite list_lookup_insert_ne.
Qed.

Lemma held_insert_closer s c pc pc' h :
  inv s → closers s !! c = Some pc →
  (holdsClose pc → holdsClose pc') →
  mx (tq s) = Some h →
  match h with
  | ByEnqueue j =>
      ∃ q, producers s !! j = Some q ∧ holdsEnqueue (enqueue_at q)
  | ByClose c1 =>
      ∃ pc1, <[c := pc']> (closers s) !! c1 = Some pc1 ∧ holdsClose pc1
  end.
Proof.
  intros Hinv Hp Hn Hh. pose proof (inv_mx_held s Hinv h Hh) as Hheld.
  destruct h as [j|c1]; [done|].
  destruct Hheld as (q & Hq & Hhq).
  destruct (decide (c1 = c)) as [->|Hne].
  - exists pc'. rewrite list_lookup_insert_eq by (by eapply lookup_lt_Some).
    split; [done|]. apply Hn. congruence.
  - exists q. by rewrite list_lookup_insert_ne.
Qed.

Lemma closedBy_insert (cs : list close_pc) c pc pc' :
  cs !! c = Some pc → (closedBy pc ↔ closedBy pc') →
  (∃ c1 pc1, <[c := pc']> cs !! c1 = Some pc1 ∧ closedBy pc1) ↔
  (∃ c1 pc1, cs !! c1 = Some pc1 ∧ closedBy pc1).
Proof.
  intros Hc Hiff. split; intros (c1 & pc1 & Hc1 & Hcl).
  - lookup_insert_cases Hc1.
    + exists c, pc. split; [done|]. by apply Hiff.
    + by exists c1, pc1.
  - destruct (decide (c1 = c)) as [->|Hne].
    + exists c, pc'.
      rewrite list_lookup_insert_eq by (by eapply lookup_lt_Some).
      split; [done|]. apply Hiff. congruence.
    + exists c1, pc1. by rewrite list_lookup_insert_ne.
Qed.

Lemma wg_zero_idle (ws : list loop_pc) :
  length ws ≤ 1 →
  0 = length (filter (fun w => counted w = true) ws) →
  concat (running_of <$> ws) = [].
Proof.
  destruct ws as [|[] [|]]; simpl; intros; try done; lia.
Qed.

Lemma step_DoOnce_inv i s s' : inv s → step (DoOnce i) s = Some s' → inv s'.
Proof.
  intros Hinv Hstep. split_inv Hinv.
  unfold step in Hstep. rewrite Halive in Hstep.
  destruct (producers s !! i) as [[[] [|t rest]]|] eqn:Hp; try done.
  assert (¬ holdsEnqueue Enqueue_once) as Hnh by (by intros [|]).
  destruct (once s) eqn:Ho; simplify_eq; constructor; simpl;
    try assumption; try done; try (by destruct Hinv).
  - pcases; [by destruct Hh|by eauto].
  - intros h Hh. by eapply held_insert_producer.
  - unfold sending; simpl. by erewrite sending_of_insert.
  - unfold unlocking; simpl. by erewrite unlocking_of_insert.
  - rewrite (Honce eq_refl). simpl. lia.
  - by destruct (loops s).
  - pcases; [by destruct Hh|by eauto].
  - intros h Hh. by eapply held_insert_producer.
  - rewrite Hwg, (Honce eq_refl). done.
  - rewrite (Honce eq_refl). intros [|[|]] pc; simpl; intros; simplify_eq.
    by destruct H0.
  - unfold sending; simpl. by erewrite sending_of_insert.
  - unfold running; simpl. rewrite running_app. simpl. by rewrite app_nil_r.
  - unfold unlocking; simpl. by erewrite unlocking_of_insert.
  - intros c Hc. unfold running; simpl. rewrite running_app. simpl.
    rewrite app_nil_r. by eapply Hret.
Qed.

Lemma step_EnqueueLock_inv i s s' :
  inv s → step (EnqueueLock i) s = Some s' → inv s'.
Proof.
  intros Hinv Hstep. split_inv Hinv.
  unfold step in Hstep. rewrite Halive in Hstep.
  destruct (producers s !! i) as [[[] [|t rest]]|] eqn:Hp; try done.
  destruct (mx (tq s)) eqn:Hmx; [done|].
  destruct (free_no_holder s Hinv Hmx) as [Hfp Hfc].
  assert (i < length (producers s)) as Hlen by (by eapply lookup_lt_Some).
  simplify_eq; constructor; simpl; try assumption; try done;
    try (by destruct Hinv).
  - pcases; [by eapply (Hcalled i)|by eapply Hcalled].
  - pcases; [done|]. by destruct (Hfp _ _ Hj).
  - intros c pc Hc Hh. by destruct (Hfc _ _ Hc).
  - intros h [= <-]. eexists. rewrite list_lookup_insert_eq by done.
    split; [done|]. by left.
  - unfold sending, sending_of; simpl.
    rewrite list_lookup_insert_eq by done.
    rewrite Hsub. unfold sending, sending_of. rewrite Hmx.
    by rewrite app_nil_r.
  - unfold unlocking, unlocking_of; simpl.
    rewrite list_lookup_insert_eq by done.
    rewrite Henq. unfold unlocking, unlocking_of. by rewrite Hmx.
Qed.

Lemma step_EnqueueSend_inv i w s s' :
  inv s → step (EnqueueSend i w) s = Some s' → inv s'.
Proof.
  intros Hinv Hstep. split_inv Hinv.
  unfold step in Hstep. rewrite Halive in Hstep.
  destruct (producers s !! i) as [[[] [|t rest]]|] eqn:Hp; try done.
  assert (mx (tq s) = Some (ByEnqueue i)) as Hmx
    by (eapply Hmxe; [done|by left]).
  assert (tc_closed (tq s) = false) as Hopen
    by (eapply holder_open; [done..|by left]).
  rewrite Hopen in Hstep.
  destruct (loops s !! w) as [[]|] eqn:Hw; try done.
  destruct (single_lookup _ _ _ Hloops Hw) as [-> Hl].
  assert (i < length (producers s)) as Hlen by (by eapply lookup_lt_Some).
  unfold sending, sending_of in Hsub. unfold unlocking, unlocking_of in Henq.
  unfold running in Hsta.
  rewrite Hmx, Hp in Hsub, Henq. rewrite Hl in Hsta.
  simpl in Hsta. rewrite app_nil_r in Hsta, Henq.
  simplify_eq; constructor; simpl; try assumption; try done;
    try (by destruct Hinv).
  all: rewrite ?Hl in *; simpl in *; try done.
  - intros Ho. by rewrite (Hcalled i _ Hp) in Ho.
  - pcases; [by eapply (Hcalled i)|by eapply Hcalled].
  - pcases; [done|by eauto].
  - intros h Hh. eapply held_insert_producer; [done..| |done].
    intros _. by right.
  - intros [|] pc; simpl; intros; simplify_eq. by destruct H0.
  - unfold sending, sending_of; simpl.
    rewrite Hmx, list_lookup_insert_eq by done.
    by rewrite Hsub, app_nil_r.
  - by rewrite Hsta.
  - unfold unlocking, unlocking_of; simpl.
    rewrite Hmx, list_lookup_insert_eq by done. by rewrite Henq.
  - intros c Hc.
    assert (tc_closed (tq s) = true); [|congruence].
    apply Hclosed. exists c, Close_returned. split; [done|by right].
Qed.

Lemma step_EnqueueUnlock_inv i s s' :
  inv s → step (EnqueueUnlock i) s = Some s' → inv s'.
Proof.
  intros Hinv Hstep. split_inv Hinv.
  unfold step in Hstep. rewrite Halive in Hstep.
  destruct (producers s !! i) as [[[] [|t rest]]|] eqn:Hp; try done.
  assert (mx (tq s) = Some (ByEnqueue i)) as Hmx
    by (eapply Hmxe; [done|by right]).
  rewrite Hmx in Hstep.
  assert (i < length (producers s)) as Hlen by (by eapply lookup_lt_Some).
  unfold sending, sending_of in Hsub. unfold unlocking, unlocking_of in Henq.
  rewrite Hmx, Hp in Hsub, Henq.
  simplify_eq; constructor; simpl; try assumption; try done;
    try (by destruct Hinv).
  - pcases; [done|by eapply Hcalled].
  - pcases; [by destruct Hh|].
    pose proof (Hmxe _ _ Hj Hh). congruence.
  - intros c pc Hc Hh. pose proof (Hmxc _ _ Hc Hh). congruence.
  - by rewrite Henq, <- app_assoc.
Qed.

Lemma step_LoopAdd_inv w s s' :
  inv s → step (LoopAdd w) s = Some s' → inv s'.
Proof.
  intros Hinv Hstep. split_inv Hinv.
  unfold step in Hstep. rewrite Halive in Hstep.
  destruct (loops s !! w) as [[]|] eqn:Hw; try done.
  destruct (single_lookup _ _ _ Hloops Hw) as [-> Hl].
  unfold running in Hsta, Hret.
  simplify_eq; constructor; simpl; try assumption; try done;
    try (by destruct Hinv).
  all: rewrite ?Hl in *; simpl in *; try done.
  - intros Ho. by apply Honce in Ho.
  - by rewrite Hwg.
  - intros [|] pc; simpl; intros; simplify_eq. by destruct H0.
Qed.

Lemma step_LoopRan_inv w s s' :
  inv s → step (LoopRan w) s = Some s' → inv s'.
Proof.
  intros Hinv Hstep. split_inv Hinv.
  unfold step in Hstep. rewrite Halive in Hstep.
  destruct (loops s !! w) as [[]|] eqn:Hw; try done.
  destruct (single_lookup _ _ _ Hloops Hw) as [-> Hl].
  unfold running in Hsta, Hret.
  simplify_eq; constructor; simpl; try assumption; try done;
    try (by destruct Hinv).
  all: rewrite ?Hl in *; simpl in *; try done.
  - intros Ho. by apply Honce in Ho.
  - intros [|] pc; simpl; intros; simplify_eq. by destruct H0.
  - unfold running; simpl. by rewrite app_nil_r.
Qed.

Lemma step_LoopClosed_inv w s s' :
  inv s → step (LoopClosed w) s = Some s' → inv s'.
Proof.
  intros Hinv Hstep. split_inv Hinv.
  unfold step in Hstep. rewrite Halive in Hstep.
  destruct (loops s !! w) as [[]|] eqn:Hw; try done.
  destruct (tc_closed (tq s)) eqn:Hcl; [|done].
  destruct (single_lookup _ _ _ Hloops Hw) as [-> Hl].
  unfold running in Hsta, Hret.
  simplify_eq; constructor; simpl; try assumption; try done;
    try (by destruct Hinv).
  all: rewrite ?Hl in *; simpl in *; try done.
  - intros Ho. by apply Honce in Ho.
Qed.

Lemma step_LoopDone_inv w s s' :
  inv s → step (LoopDone w) s = Some s' → inv s'.
Proof.
  intros Hinv Hstep. split_inv Hinv.
  unfold step in Hstep. rewrite Halive in Hstep.
  destruct (loops s !! w) as [[]|] eqn:Hw; try done.
  destruct (single_lookup _ _ _ Hloops Hw) as [-> Hl].
  unfold running in Hsta, Hret.
  rewrite Hl in Hwg. simpl in Hwg. rewrite Hwg in Hstep.
  simplify_eq; constructor; simpl; try assumption; try done;
    try (by destruct Hinv).
  all: rewrite ?Hl in *; simpl in *; try done.
  - intros Ho. by apply Honce in Ho.
  - intros [|] pc; simpl; intros; simplify_eq. eapply (Hlc 0); eauto.
Qed.

Lemma step_CloseLock_inv c s s' :
  inv s → step (CloseLock c) s = Some s' → inv s'.
Proof.
  intros Hinv Hstep. split_inv Hinv.
  unfold step in Hstep. rewrite Halive in Hstep.
  destruct (closers s !! c) as [[]|] eqn:Hc; try done.
  destruct (mx (tq s)) eqn:Hmx; [done|].
  destruct (free_no_holder s Hinv Hmx) as [Hfp Hfc].
  assert (c < length (closers s)) as Hlen by (by eapply lookup_lt_Some).
  unfold sending, sending_of in Hsub. unfold unlocking, unlocking_of in Henq.
  rewrite Hmx in Hsub, Henq.
  simplify_eq; constructor; simpl; try assumption; try done;
    try (by destruct Hinv).
  - intros j p Hj Hh. by destruct (Hfp _ _ Hj).
  - ccases; [done|]. by destruct (Hfc _ _ Hc0).
  - intros h [= <-]. eexists. rewrite list_lookup_insert_eq by done.
    split; [done|]. by left.
  - rewrite closedBy_insert; [done..|]. split; by intros [|].
  - intros c1 Hc1.
    apply list_lookup_insert_Some in Hc1 as [(_ & ? & _)|(_ & Hc1)];
      [done|by eapply Hret].
Qed.

Lemma step_CloseClose_inv c s s' :
  inv s → step (CloseClose c) s = Some s' → inv s'.
Proof.
  intros Hinv Hstep. split_inv Hinv.
  unfold step in Hstep. rewrite Halive in Hstep.
  destruct (closers s !! c) as [[]|] eqn:Hc; try done.
  assert (c < length (closers s)) as Hlen by (by eapply lookup_lt_Some).
  assert (tc_closed (tq s) = false) as Hopen.
  { apply not_true_is_false. intros (c1 & pc1 & Hc1 & Hcl)%Hclosed.
    assert (c = c1) as <-.
    { eapply closer_holds_unique; [done..|by left|done|].
      destruct Hcl as [->| ->]; unfold holdsClose; auto. }
    rewrite Hc in Hc1. destruct Hcl; congruence. }
  rewrite Hopen in Hstep.
  simplify_eq; constructor; simpl; try assumption; try done;
    try (by destruct Hinv).
  - ccases; [|by eauto]. eapply Hmxc; [done|by left].
  - intros h Hh. eapply held_insert_closer; [done..| |done].
    intros _. right. by left.
  - split; [|done]. intros _. exists c, Close_Wait.
    rewrite list_lookup_insert_eq by done. split; [done|by left].
  - intros c1 Hc1.
    apply list_lookup_insert_Some in Hc1 as [(_ & ? & _)|(_ & Hc1)];
      [done|by eapply Hret].
Qed.

Lemma step_CloseWait_inv c s s' :
  inv s → step (CloseWait c) s = Some s' → inv s'.
Proof.
  intros Hinv Hstep. split_inv Hinv.
  unfold step in Hstep. rewrite Halive in Hstep.
  destruct (closers s !! c) as [[]|] eqn:Hc; try done.
  destruct (wg (tq s)) eqn:Hz; [|done].
  assert (c < length (closers s)) as Hlen by (by eapply lookup_lt_Some).
  simplify_eq; constructor; simpl; try assumption; try done;
    try (by destruct Hinv).
  - ccases; [|by eauto]. eapply Hmxc; [done|]. right. by left.
  - intros h Hh. eapply held_insert_closer; [done..| |done].
    intros _. right. by right.
  - rewrite closedBy_insert; [done..|]. split; intros _; [by right|by left].
  - intros c1 Hc1. by apply wg_zero_idle.
Qed.

(** The invariant holds in every reachable state. *)
Lemma step_inv l s s' : inv s → step l s = Some s' → inv s'.
Proof.
  intros Hinv Hstep. destruct l.
  - by eapply step_DoOnce_inv.
  - by eapply step_EnqueueLock_inv.
  - by eapply step_EnqueueSend_inv.
  - by eapply step_EnqueueUnlock_inv.
  - by eapply step_LoopAdd_inv.
  - by eapply step_LoopRan_inv.
  - by eapply step_LoopClosed_inv.
  - by eapply step_LoopDone_inv.
  - by eapply step_CloseLock_inv.
  - by eapply step_CloseClose_inv.
  - by eapply step_CloseWait_inv.
Qed.

Lemma rtc_inv s s' : inv s → rtc steps_to s s' → inv s'.
Proof.
  intros Hinv Hsteps. induction Hsteps as [|s s1 s2 [l Hl] _ IH]; [done|].
  apply IH. by eapply step_inv.
Qed.

Lemma reachable_inv programs n s : reachable programs n s → inv s.
Proof. apply rtc_inv, initial_inv. Qed.

(** *** Shape of the reachable states *)

Ltac step_cases Hstep :=
  unfold step in Hstep;
  destruct (panicked _) eqn:?; [done|];
  repeat match type of Hstep with
         | context [match ?x with _ => _ end] => destruct x eqn:?
         end;
  simplify_eq.

Lemma step_shaped programs n l s s' :
  shaped programs n s → step l s = Some s' → shaped programs n s'.
Proof.
  intros (Hp & Hc & Ht) Hstep.
  destruct l; step_cases Hstep; repeat split; simpl;
    rewrite ?length_insert; try done.
  all: intros j p Hj Hne; lookup_insert_cases Hj; simpl in *; eauto.
Qed.

Lemma initial_shaped programs n : shaped programs n (initial programs n).
Proof.
  repeat split; simpl.
  - by rewrite length_fmap.
  - by rewrite length_replicate.
  - intros i p [ts [-> _]]%list_lookup_fmap_Some. done.
Qed.

Lemma reachable_shaped programs n s :
  reachable programs n s → shaped programs n s.
Proof.
  intros Hr. unfold reachable in Hr.
  pose proof (initial_shaped programs n) as Hi.
  induction Hr as [|s s1 s2 [l Hl] _ IH]; [done|].
  apply IH. by eapply step_shaped.
Qed.

Lemma step_follows ts l s s' :
  follows ts s → step l s = Some s' → follows ts s'.
Proof.
  intros (p & Hp & Hts) Hstep. unfold follows.
  destruct l; step_cases Hstep; simpl; rewrite ?Hp in *.
  all: try (by exists p).
  all: match goal with
       | H : [_] !! ?i = Some _ |- _ =>
           destruct i; simpl in H; simplify_eq; simpl
       end.
  all: eexists; split; [done|]; simpl; try done.
  by rewrite <- app_assoc.
Qed.

Lemma reachable_follows ts n s : reachable [ts] n s → follows ts s.
Proof.
  intros Hr. unfold reachable in Hr.
  assert (follows ts (initial [ts] n)) as Hi by (by eexists).
  induction Hr as [|s s1 s2 [l Hl] _ IH]; [done|].
  apply IH. by eapply step_follows.
Qed.

(** *** Every step uses up some of the weight *)

Lemma sum_list_insert {A} (f : A → nat) (l : list A) i x y :
  l !! i = Some x →
  sum_list (f <$> <[i := y]> l) + f x = sum_list (f <$> l) + f y.
Proof.
  revert i. induction l as [|a l IH]; intros [|i]; simpl; try done.
  - intros [= ->]. lia.
  - intros Hi. specialize (IH i Hi). unfold fmap in IH. lia.
Qed.

Lemma step_weight l s s' : step l s = Some s' → weight s' < weight s.
Proof.
  intros Hstep.
  destruct l; step_cases Hstep; unfold weight; simpl;
    repeat match goal with
    | H : ?l !! ?i = Some ?x |- context [?f <$> <[?i := ?y]> ?l] =>
        pose proof (sum_list_insert f l i x y H);
        generalize dependent (sum_list (f <$> <[i := y]> l)); intros
    end;
    rewrite ?fmap_app, ?sum_list_with_app;
    repeat match goal with
    | H : ?b = _ |- context [if ?b then _ else _] => rewrite H
    end;
    unfold producer_weight in *; simpl in *; try lia.
Qed.

(** A schedule is no longer than the weight of the state it starts in. *)
Lemma run_schedule_bounded ls s s' :
  run_schedule ls s = Some s' → length ls + weight s' ≤ weight s.
Proof.
  revert s. induction ls as [|l ls IH]; intros s; simpl.
  - intros [= ->]. lia.
  - destruct (step l s) as [s1|] eqn:E; [|done].
    intros H%IH. apply step_weight in E. lia.
Qed.

(** *** What [Close] waits for *)

Lemma step_submitted l s s' :
  step l s = Some s' → submitted s `prefix_of` submitted s'.
Proof.
  intros Hstep. destruct l; step_cases Hstep; simpl;
    first [done | by apply prefix_app_r].
Qed.

Lemma rtc_submitted s s' :
  rtc steps_to s s' → submitted s `prefix_of` submitted s'.
Proof.
  induction 1 as [|s s1 s2 [l Hl] _ IH]; [done|].
  etrans; [by eapply step_submitted|done].
Qed.

(** When a [Close] has returned, every task that was ever submitted has
    run to its end, and no [Enqueue] is handing a task over. *)
Lemma returned_all_finished s c :
  inv s → closers s !! c = Some Close_returned →
  finished s = submitted s ∧ sending s = [] ∧ unlocking s = [] ∧
  running s = [].
Proof.
  intros Hinv Hc. split_inv Hinv.
  assert (mx (tq s) = Some (ByClose c)) as Hmx.
  { eapply Hmxc; [done|]. right. by right. }
  assert (sending s = []) as Hs by (unfold sending, sending_of; by rewrite Hmx).
  assert (unlocking s = []) as Hu
    by (unfold unlocking, unlocking_of; by rewrite Hmx).
  pose proof (Hret c Hc) as Hr.
  rewrite Hs, app_nil_r in Hsub. rewrite Hr, app_nil_r in Hsta.
  repeat split; try done. congruence.
Qed.

(** *** Once a [Close] holds the mutex *)

Lemma step_frozen l s s' c pc :
  inv s → closers s !! c = Some pc → holdsClose pc →
  step l s = Some s' →
  (∃ pc', closers s' !! c = Some pc' ∧ holdsClose pc') ∧
  submitted s' = submitted s ∧ started s' = started s ∧
  enqueued s' = enqueued s ∧
  (∀ i p, producers s !! i = Some p → beforeLock (enqueue_at p) →
     ∃ p', producers s' !! i = Some p' ∧ beforeLock (enqueue_at p') ∧
           todo p' = todo p).
Proof.
  intros Hinv Hc Hh Hstep.
  pose proof (inv_mx_close s Hinv c pc Hc Hh) as Hmx.
  assert (∀ i p, producers s !! i = Some p → ¬ holdsEnqueue (enqueue_at p))
    as Hnone.
  { intros i p Hp Hhp. by eapply holders_exclusive. }
  assert (∀ i p, producers s !! i = Some p → beforeLock (enqueue_at p) →
     ∃ p', producers s !! i = Some p' ∧ beforeLock (enqueue_at p') ∧
           todo p' = todo p) as Hsame by eauto.
  destruct l; step_cases Hstep; simpl;
    try (by (split; [eauto|done]));
    try congruence;
    try (by match goal with
            | H : producers s !! _ = Some _ |- _ =>
                destruct (Hnone _ _ H); unfold holdsEnqueue; simpl; auto
            end).
  - (* once.Do *)
    split; [eauto|]. repeat split; try done.
    intros j p Hj Hb. destruct (decide (j = i)) as [->|Hne].
    + eexists. rewrite list_lookup_insert_eq by (by eapply lookup_lt_Some).
      split; [done|]. split; [by right|]. by simplify_eq.
    + exists p. by rewrite list_lookup_insert_ne.
  - split; [eauto|]. repeat split; try done.
    intros j p Hj Hb. destruct (decide (j = i)) as [->|Hne].
    + eexists. rewrite list_lookup_insert_eq by (by eapply lookup_lt_Some).
      split; [done|]. split; [by right|]. by simplify_eq.
    + exists p. by rewrite list_lookup_insert_ne.
  - (* close(tq.tc) *)
    assert (c = c0) as <-
      by (eapply closer_holds_unique; [done..|by left]).
    split; [|done]. exists Close_Wait.
    rewrite list_lookup_insert_eq by (by eapply lookup_lt_Some).
    split; [done|]. right. by left.
  - (* tq.wg.Wait() *)
    assert (c = c0) as <-
      by (eapply closer_holds_unique; [done..|right; by left]).
    split; [|done]. exists Close_returned.
    rewrite list_lookup_insert_eq by (by eapply lookup_lt_Some).
    split; [done|]. right. by right.
Qed.

Lemma rtc_frozen s s' c pc :
  inv s → closers s !! c = Some pc → holdsClose pc →
  rtc steps_to s s' →
  inv s' ∧
  (∃ pc', closers s' !! c = Some pc' ∧ holdsClose pc') ∧
  submitted s' = submitted s ∧ started s' = started s ∧
  enqueued s' = enqueued s ∧
  (∀ i p, producers s !! i = Some p → beforeLock (enqueue_at p) →
     ∃ p', producers s' !! i = Some p' ∧ beforeLock (enqueue_at p') ∧
           todo p' = todo p).
Proof.
  intros Hinv Hc Hh Hsteps. revert pc Hinv Hc Hh.
  induction Hsteps as [|s s1 s2 [l Hl] _ IH]; intros pc Hinv Hc Hh.
  - split; [done|]. split; [by eauto|]. do 3 (split; [done|]). eauto.
  - destruct (step_frozen l s s1 c pc Hinv Hc Hh Hl)
      as ((pc1 & Hc1 & Hh1) & Hsub & Hsta & Henq & Hprod).
    destruct (IH pc1 (step_inv _ _ _ Hinv Hl) Hc1 Hh1)
      as (Hinv2 & Hc2 & Hsub2 & Hsta2 & Henq2 & Hprod2).
    split; [done|]. split; [done|].
    split; [congruence|]. split; [congruence|]. split; [congruence|].
    intros i p Hp Hb.
    destruct (Hprod i p Hp Hb) as (p1 & Hp1 & Hb1 & Ht1).
    destruct (Hprod2 i p1 Hp1 Hb1) as (p2 & Hp2 & Hb2 & Ht2).
    exists p2. split; [done|]. split; [done|]. congruence.
Qed.

(** *** One producer *)

Lemma single_holder s p h :
  inv s → producers s = [p] → mx (tq s) = Some h →
  (h = ByEnqueue 0 ∧ holdsEnqueue (enqueue_at p)) ∨ (∃ c, h = ByClose c).
Proof.
  intros Hinv Hp Hmx. pose proof (inv_mx_held s Hinv h Hmx) as Hheld.
  destruct h as [i|c]; [|eauto]. left.
  destruct Hheld as (q & Hq & Hh). rewrite Hp in Hq.
  destruct i; simpl in Hq; by simplify_eq.
Qed.

Lemma single_histories ts n s p :
  inv s → shaped [ts] n s → producers s = [p] → ts = enqueued s ++ todo p →
  match enqueue_at p, todo p with
  | Enqueue_send, t :: _ =>
      sending s = [t] ∧ unlocking s = [] ∧ submitted s = enqueued s ++ [t]
  | Enqueue_Unlock, t :: _ =>
      sending s = [] ∧ unlocking s = [t] ∧ submitted s = enqueued s ++ [t]
  | _, _ => sending s = [] ∧ unlocking s = [] ∧ submitted s = enqueued s
  end.
Proof.
  intros Hinv (_ & _ & Htodo) Hp Hts. split_inv Hinv.
  assert (producers s !! 0 = Some p) as Hp0 by (by rewrite Hp).
  unfold sending, sending_of, unlocking, unlocking_of in *.
  destruct p as [pc td]. simpl in *.
  destruct pc.
  - destruct (mx (tq s)) as [h|] eqn:Hmx.
    + destruct (single_holder s _ h Hinv Hp Hmx) as [[-> [|]]|[c ->]];
        simplify_eq/=. rewrite app_nil_r in *.
      destruct td; split_and!; congruence.
    + rewrite app_nil_r in *. destruct td; split_and!; congruence.
  - destruct (mx (tq s)) as [h|] eqn:Hmx.
    + destruct (single_holder s _ h Hinv Hp Hmx) as [[-> [|]]|[c ->]];
        simplify_eq/=. rewrite app_nil_r in *.
      destruct td; split_and!; congruence.
    + rewrite app_nil_r in *. destruct td; split_and!; congruence.
  - rewrite (Hmxe 0 _ Hp0) in * by (by left). rewrite Hp0 in *.
    destruct td as [|t td]; [by destruct (Htodo 0 _ Hp0)|].
    rewrite app_nil_r in *. split_and!; congruence.
  - rewrite (Hmxe 0 _ Hp0) in * by (by right). rewrite Hp0 in *.
    destruct td as [|t td]; [by destruct (Htodo 0 _ Hp0)|].
    rewrite app_nil_r in *. split_and!; congruence.
Qed.

Lemma single_submitted ts n s :
  inv s → shaped [ts] n s → follows ts s → submitted s `prefix_of` ts.
Proof.
  intros Hinv Hsh (p & Hp & Hts).
  pose proof (single_histories ts n s p Hinv Hsh Hp Hts) as H.
  destruct p as [[] [|t td]]; simpl in *; destruct H as (_ & _ & ->);
    rewrite Hts; try (by apply prefix_app_r).
  all: apply prefix_app, prefix_cons, prefix_nil.
Qed.

(** With one producer and nobody to close the queue, either every task
    has been enqueued and has run, or some goroutine can take a step. *)
Lemma single_progress ts s :
  inv s → shaped [ts] 0 s → follows ts s →
  (enqueued s = ts ∧ started s = ts ∧ finished s = ts) ∨
  (∃ l s', step l s = Some s').
Proof.
  intros Hinv Hsh (p & Hp & Hts).
  pose proof (single_histories ts 0 s p Hinv Hsh Hp Hts) as Hhist.
  destruct Hsh as (_ & Hcl%nil_length_inv & Htodo).
  split_inv Hinv.
  assert (producers s !! 0 = Some p) as Hp0 by (by rewrite Hp).
  destruct p as [pc td]. simpl in *.
  destruct pc.
  - (* not in a call *)
    destruct td as [|t td].
    + rewrite app_nil_r in Hts. destruct Hhist as (_ & Hu & _).
      rewrite Hu, app_nil_r in Henq.
      destruct (loops s) as [|w [|]] eqn:Hl; simpl in *; try lia.
      { left. unfold running in Hsta. rewrite Hl in Hsta. simpl in Hsta.
        rewrite app_nil_r in Hsta. split_and!; congruence. }
      destruct w.
      * right. exists (LoopAdd 0). unfold step. rewrite Halive, Hl. eauto.
      * left. unfold running in Hsta. rewrite Hl in Hsta. simpl in Hsta.
        rewrite app_nil_r in Hsta. split_and!; congruence.
      * right. exists (LoopRan 0). unfold step. rewrite Halive, Hl. eauto.
      * left. unfold running in Hsta. rewrite Hl in Hsta. simpl in Hsta.
        rewrite app_nil_r in Hsta. split_and!; congruence.
      * left. unfold running in Hsta. rewrite Hl in Hsta. simpl in Hsta.
        rewrite app_nil_r in Hsta. split_and!; congruence.
    + right. exists (DoOnce 0). unfold step. rewrite Halive, Hp0.
      destruct (once s); eauto.
  - (* before Lock *)
    destruct td as [|t td]; [by destruct (Htodo 0 _ Hp0)|].
    right. exists (EnqueueLock 0). unfold step. rewrite Halive, Hp0.
    destruct (mx (tq s)) as [h|] eqn:Hmx; [|by eauto].
    destruct (single_holder s _ h Hinv Hp Hmx) as [[-> [|]]|[c ->]]; try done.
    destruct (Hheld _ eq_refl) as (pc & Hc & _). by rewrite Hcl in Hc.
  - (* before the send *)
    destruct td as [|t td]; [by destruct (Htodo 0 _ Hp0)|].
    assert (tc_closed (tq s) = false) as Hopen
      by (eapply holder_open; [done..|by left]).
    assert (once s = true) as Ho by (by eapply (Hcalled 0)).
    destruct (loops s) as [|w [|]] eqn:Hl; simpl in *; try lia.
    { by destruct (Hspawned Ho). }
    right. destruct w.
    + exists (LoopAdd 0). unfold step. rewrite Halive, Hl. eauto.
    + exists (EnqueueSend 0 0). unfold step.
      rewrite Halive, Hp0, Hopen, Hl. eauto.
    + exists (LoopRan 0). unfold step. rewrite Halive, Hl. eauto.
    + rewrite (Hlc 0 Loop_Done) in Hopen; [done|done|by left].
    + rewrite (Hlc 0 Loop_returned) in Hopen; [done|done|by right].
  - (* before Unlock *)
    destruct td as [|t td]; [by destruct (Htodo 0 _ Hp0)|].
    right. exists (EnqueueUnlock 0). unfold step. rewrite Halive, Hp0.
    rewrite (Hmxe 0 _ Hp0) by (by right). eauto.
Qed.

(** It comes to rest only when every task has been enqueued and has run. *)
Lemma single_stuck ts s :
  inv s → shaped [ts] 0 s → follows ts s → stuck s →
  enqueued s = ts ∧ started s = ts ∧ finished s = ts.
Proof.
  intros Hinv Hsh Hf Hstuck.
  destruct (single_progress ts s Hinv Hsh Hf) as [|(l & s' & Hl)]; [done|].
  by rewrite Hstuck in Hl.
Qed.

(** And it can always get there. *)
Lemma single_completes ts s :
  inv s → shaped [ts] 0 s → follows ts s →
  ∃ s', rtc steps_to s s' ∧
        enqueued s' = ts ∧ started s' = ts ∧ finished s' = ts.
Proof.
  remember (weight s) as k eqn:Hk. revert s Hk.
  induction k as [k IH] using lt_wf_ind. intros s -> Hinv Hsh Hf.
  destruct (single_progress ts s Hinv Hsh Hf) as [|(l & s1 & Hl)].
  - exists s. split; [constructor|done].
  - destruct (IH (weight s1) (step_weight _ _ _ Hl) s1 eq_refl)
      as (s' & Hs' & Hdone).
    + by eapply step_inv.
    + by eapply step_shaped.
    + by eapply step_follows.
    + exists s'. split; [|done]. eapply rtc_l; [by exists l|done].
Qed.

Lemma schedule_reachable programs n ls s :
  run_schedule ls (initial programs n) = Some s → reachable programs n s.
Proof. apply run_schedule_rtc. Qed.

(** *** The claims about the queue *)

(** C1: on the package's queue, started by the first [Enqueue] through
    [once], at most one [Loop] goroutine ever exists; the tasks are
    started in the order in which their [Enqueue] calls took the mutex,
    each as often as it was submitted, the started tasks being all the
    submitted ones but the one still being handed over; they finish in the
    order they start, one at a time; and every returned [Enqueue] has had
    its task started.  For one goroutine that enqueues [t1..tN] the tasks
    are submitted in that order, and when nobody closes the queue every
    run comes to rest, after a bounded number of steps, with exactly
    [t1..tN] enqueued, started and finished in this order; such a run
    exists from every state. *)
Theorem tasks_run_once_in_order programs n s :
  reachable programs n s →
  length (loops s) ≤ 1 ∧
  panicked s = false ∧
  submitted s = started s ++ sending s ∧
  started s = finished s ++ running s ∧
  started s = enqueued s ++ unlocking s ∧
  (∀ ts, programs = [ts] →
     (∃ p, producers s = [p] ∧ ts = enqueued s ++ todo p) ∧
     submitted s `prefix_of` ts ∧
     (n = 0 → stuck s →
      enqueued s = ts ∧ started s = ts ∧ finished s = ts) ∧
     (n = 0 → ∃ s', rtc steps_to s s' ∧
        enqueued s' = ts ∧ started s' = ts ∧ finished s' = ts)) ∧
  (∀ l s', step l s = Some s' → weight s' < weight s).
Proof.
  intros Hr. pose proof (reachable_inv _ _ _ Hr) as Hinv.
  pose proof (reachable_shaped _ _ _ Hr) as Hsh.
  split_inv Hinv. split_and!; try done.
  - intros ts ->. pose proof (reachable_follows _ _ _ Hr) as Hf.
    split_and!; [done|by eapply single_submitted| |].
    + intros ->. by apply single_stuck.
    + intros ->. by apply single_completes.
  - intros l s'. apply step_weight.
Qed.

Lemma tasks_run_once_in_order_witness :
  started (state_after (schedule_drain ++ [LoopRan 0]) (initial [[t1; t2]] 0))
    = [t1; t2] ∧
  finished (state_after (schedule_drain ++ [LoopRan 0]) (initial [[t1; t2]] 0))
    = [t1; t2].
Proof.
  assert (reachable [[t1; t2]] 0
            (state_after (schedule_drain ++ [LoopRan 0])
               (initial [[t1; t2]] 0))) as Hr
    by (apply (schedule_reachable _ _ (schedule_drain ++ [LoopRan 0]));
        vm_compute; reflexivity).
  destruct (tasks_run_once_in_order _ _ _ Hr) as (_ & _ & _ & _ & _ & H & _).
  destruct (H [t1; t2] eq_refl) as (_ & _ & Hstuck & _).
  destruct (Hstuck eq_refl) as (_ & Hs & Hf); [|by split].
  intros l. destruct l as [[|[|]]|[|[|]]|[|[|]] [|[|]]|[|[|]]|[|[|]]|[|[|]]
                          |[|[|]]|[|[|]]|[|[|]]|[|[|]]|[|[|]]];
    vm_compute; reflexivity.
Defined.

(** C2: when a call to [Close] has returned, every task whose [Enqueue]
    had taken the mutex at any earlier moment, so every task enqueued
    before the call and the task being handed over at the call, has been
    run to its end; nothing is running and nothing is being handed over. *)
Theorem Close_returns_after_tasks programs n s1 s2 c :
  reachable programs n s1 → rtc steps_to s1 s2 →
  closers s2 !! c = Some Close_returned →
  submitted s1 = enqueued s1 ++ unlocking s1 ++ sending s1 ∧
  submitted s1 `prefix_of` finished s2 ∧
  running s2 = [] ∧ sending s2 = [] ∧ unlocking s2 = [].
Proof.
  intros Hr Hsteps Hc.
  pose proof (reachable_inv _ _ _ Hr) as Hinv1.
  pose proof (rtc_inv _ _ Hinv1 Hsteps) as Hinv2.
  destruct (returned_all_finished s2 c Hinv2 Hc) as (Hf & Hs & Hu & Hrun).
  split_and!; try done.
  - rewrite (inv_submitted s1 Hinv1), (inv_enqueued s1 Hinv1).
    by rewrite <- app_assoc.
  - rewrite Hf. by apply rtc_submitted.
Qed.

Lemma Close_returns_after_tasks_witness :
  submitted (state_after schedule_drain (initial [[t1; t2]] 1))
    `prefix_of`
  finished (state_after (schedule_drain ++ schedule_close)
              (initial [[t1; t2]] 1)).
Proof.
  refine (proj1 (proj2 (Close_returns_after_tasks [[t1; t2]] 1
            (state_after schedule_drain (initial [[t1; t2]] 1))
            (state_after (schedule_drain ++ schedule_close)
               (initial [[t1; t2]] 1)) 0 _ _ _))).
  - apply (schedule_reachable _ _ schedule_drain). vm_compute. reflexivity.
  - apply (run_schedule_rtc schedule_close). vm_compute. reflexivity.
  - vm_compute. reflexivity.
Defined.

(** A [Close] that still waits for the mutex has changed nothing and
    orders nothing: an [Enqueue] that is called while producer 0 holds the
    mutex can get the mutex before a waiting [Close] does; it returns, and
    its task runs. *)
Lemma Enqueue_before_waiting_Close :
  run_schedule (schedule_race_before ++ schedule_race_after)
    (initial [[t1]; [t2]] 1) =
    Some (state_after (schedule_race_before ++ schedule_race_after)
            (initial [[t1]; [t2]] 1)) ∧
  closers (state_after (schedule_race_before ++ schedule_race_after)
             (initial [[t1]; [t2]] 1)) !! 0 = Some Close_Lock ∧
  enqueued (state_after (schedule_race_before ++ schedule_race_after)
              (initial [[t1]; [t2]] 1)) = [t1; t2] ∧
  finished (state_after (schedule_race_before ++ schedule_race_after)
              (initial [[t1]; [t2]] 1)) = [t1; t2].
Proof. vm_compute. repeat split. Qed.

(** C3: once [Close] has been called and is past its first statement,
    [tq.mx.Lock()] (it is closing the channel, waiting for the loop, or
    has returned), every call to [Enqueue] that is made from then on, and
    every call that has not got the mutex by then, blocks for ever at
    [tq.mx.Lock()]: the call does not return, no task is submitted,
    started or enqueued any more, and nothing panics. *)
Theorem Enqueue_blocks_once_Close_holds programs n s s' c pc i p :
  reachable programs n s →
  closers s !! c = Some pc → holdsClose pc →
  producers s !! i = Some p → beforeLock (enqueue_at p) →
  rtc steps_to s s' →
  (∃ p', producers s' !! i = Some p' ∧ beforeLock (enqueue_at p') ∧
         todo p' = todo p) ∧
  submitted s' = submitted s ∧ started s' = started s ∧
  enqueued s' = enqueued s ∧ panicked s' = false.
Proof.
  intros Hr Hc Hh Hp Hb Hsteps.
  pose proof (reachable_inv _ _ _ Hr) as Hinv.
  destruct (rtc_frozen s s' c pc Hinv Hc Hh Hsteps)
    as (Hinv' & _ & Hsub & Hsta & Henq & Hprod).
  split_and!; try done; [by eapply Hprod|by destruct Hinv'].
Qed.

Lemma Enqueue_blocks_once_Close_holds_witness :
  producers (state_after (schedule_close_first ++ schedule_late_enqueue)
               (initial [[t1]] 1)) !! 0 = Some (mkProducer Enqueue_Lock [t1]) ∧
  started (state_after (schedule_close_first ++ schedule_late_enqueue)
             (initial [[t1]] 1)) = [].
Proof.
  destruct (Enqueue_blocks_once_Close_holds [[t1]] 1
              (state_after schedule_close_first (initial [[t1]] 1))
              (state_after (schedule_close_first ++ schedule_late_enqueue)
                 (initial [[t1]] 1))
              0 Close_close 0 (mkProducer Enqueue_once [t1]))
    as (_ & _ & Hsta & _).
  - apply (schedule_reachable _ _ schedule_close_first). vm_compute. reflexivity.
  - vm_compute. reflexivity.
  - left. reflexivity.
  - vm_compute. reflexivity.
  - left. reflexivity.
  - apply (run_schedule_rtc schedule_late_enqueue). vm_compute. reflexivity.
  - split; [vm_compute; reflexivity|]. rewrite Hsta. vm_compute. reflexivity.
Defined.

End tasker_facts.


Module packages_laws.
Import packages packages_facts.

(** *** Further facts about the index *)

Lemma indexByKey_lookup_last (l : list PkgInfo) (k : pkgkey) :
  indexByKey l !! k = last (filter (fun p => key p = k) l).
Proof.
  induction l as [|q l IH] using rev_ind.
  - unfold indexByKey. simpl. by rewrite lookup_empty.
  - rewrite indexByKey_snoc, filter_app, lookup_insert.
    rewrite filter_cons, filter_nil. case_decide as Hk.
    + by rewrite last_snoc.
    + by rewrite app_nil_r.
Qed.

Lemma indexByKey_size_le (l : list PkgInfo) : size (indexByKey l) ≤ length l.
Proof.
  induction l as [|q l IH] using rev_ind.
  - unfold indexByKey. simpl. by rewrite map_size_empty.
  - rewrite indexByKey_snoc, length_app. simpl.
    destruct (indexByKey l !! key q) as [p|] eqn:E.
    + rewrite map_size_insert_Some by eauto. lia.
    + rewrite map_size_insert_None by done. lia.
Qed.

(** X1: the index files under a key the last record of the inventory that
    has this key, and nothing under a key that no record has. *)
Theorem indexByKey_last (l : list PkgInfo) (k : pkgkey) :
  indexByKey l !! k = last (filter (fun p => key p = k) l) ∧
  (indexByKey l !! k = None ↔ k ∉ key <$> l).
Proof. split; [apply indexByKey_lookup_last|apply indexByKey_None]. Qed.

(** X2: the index has at most as many entries as the inventory has
    records, and as many exactly when no two records share a key. *)
Theorem indexByKey_size (l : list PkgInfo) :
  size (indexByKey l) ≤ length l ∧
  (size (indexByKey l) = length l ↔ NoDup (key <$> l)).
Proof.
  induction l as [|q l [IHle IHeq]] using rev_ind.
  - unfold indexByKey. simpl. rewrite map_size_empty.
    split; [done|]. split; [constructor|done].
  - rewrite indexByKey_snoc, fmap_app, length_app, NoDup_app. simpl.
    destruct (indexByKey l !! key q) as [p|] eqn:E.
    + rewrite map_size_insert_Some by eauto.
      split; [lia|]. split; [lia|].
      intros (_ & Hnot & _). exfalso.
      assert (is_Some (indexByKey l !! key q)) as Hin by eauto.
      apply indexByKey_is_Some in Hin. apply (Hnot _ Hin). set_solver.
    + rewrite map_size_insert_None by done.
      split; [lia|]. rewrite <- IHeq.
      apply indexByKey_None in E.
      split; [intros ?; split; [lia|]|intros (? & _); lia].
      split; [|apply NoDup_singleton].
      intros k Hk ->%list_elem_of_singleton. done.
Qed.

(** *** Further facts about the comparison *)

Lemma extraLoop_elem l lo other p :
  rangeOrder (indexByKey l) lo →
  p ∈ extraLoop lo other ↔
  indexByKey l !! key p = Some p ∧ other !! key p = None.
Proof.
  unfold rangeOrder. intros Hlo. rewrite extraLoop_filter, list_elem_of_fmap.
  split.
  - intros ([k q] & -> & [Hn Hin]%list_elem_of_filter). simpl in *.
    rewrite Hlo, elem_of_map_to_list in Hin.
    destruct (indexByKey_Some _ _ _ Hin) as [<- _]. done.
  - intros [Hp Hn]. exists (key p, p). split; [done|].
    apply list_elem_of_filter. split; [done|].
    by rewrite Hlo, elem_of_map_to_list.
Qed.

Lemma extraLoop_keys_NoDup l lo other :
  rangeOrder (indexByKey l) lo → NoDup (key <$> extraLoop lo other).
Proof.
  intros Hlo. rewrite (extraLoop_keys l) by done.
  by eapply extra_keys_NoDup.
Qed.

(** X3: a record is reported as legacy-extra exactly when it is the last
    record of the legacy inventory under its key and no record of the
    modern inventory has that key; no key is reported twice; and the same
    holds with the two inventories exchanged. *)
Theorem compare_extra_exact legacy modern r :
  compareReturns legacy modern r →
  (∀ p, p ∈ legacyExtractorExtra r ↔
        last (filter (fun q => key q = key p) legacy) = Some p ∧
        key p ∉ key <$> modern) ∧
  (∀ p, p ∈ modernExtractorExtra r ↔
        last (filter (fun q => key q = key p) modern) = Some p ∧
        key p ∉ key <$> legacy) ∧
  NoDup (key <$> legacyExtractorExtra r) ∧
  NoDup (key <$> modernExtractorExtra r).
Proof.
  intros [lo mo Hlo Hmo]. simpl. split_and!.
  - intros p. rewrite (extraLoop_elem legacy) by done.
    by rewrite indexByKey_lookup_last, <- indexByKey_None,
      indexByKey_lookup_last.
  - intros p. rewrite (extraLoop_elem modern) by done.
    by rewrite indexByKey_lookup_last, <- indexByKey_None,
      indexByKey_lookup_last.
  - by eapply extraLoop_keys_NoDup.
  - by eapply extraLoop_keys_NoDup.
Qed.

Lemma compare_extra_exact_witness :
  pkg "b" "noarch" "2.0" ∈
    modernExtractorExtra (compareExtractedPackages example_legacy example_modern).
Proof.
  destruct (compare_extra_exact example_legacy example_modern _
              (compareExtractedPackages_returns _ _)) as (_ & H & _).
  apply H. split; [reflexivity|]. vm_compute.
  intros Hin. apply list_elem_of_singleton in Hin. discriminate.
Defined.

(** X4: the two extra lists never share an identity key. *)
Theorem compare_extras_disjoint legacy modern r p q :
  compareReturns legacy modern r →
  p ∈ legacyExtractorExtra r → q ∈ modernExtractorExtra r →
  key p ≠ key q.
Proof.
  intros [lo mo Hlo Hmo]. simpl.
  rewrite (extraLoop_elem legacy), (extraLoop_elem modern) by done.
  intros [Hp _] [_ Hq] Heq. rewrite Heq in Hp. congruence.
Qed.

(** X5: a comparison reports nothing on either side exactly when the two
    inventories have the same identity keys; records that agree in their
    key and differ elsewhere are not told apart. *)
Theorem compare_nothing_extra legacy modern r :
  compareReturns legacy modern r →
  (legacyExtractorExtra r = [] ∧ modernExtractorExtra r = []) ↔
  (∀ k, k ∈ key <$> legacy ↔ k ∈ key <$> modern).
Proof.
  intros [lo mo Hlo Hmo]. simpl.
  assert (∀ X Y xo, rangeOrder (indexByKey X) xo →
            extraLoop xo (indexByKey Y) = [] ↔
            (∀ k, k ∈ key <$> X → k ∈ key <$> Y)) as Hside.
  { intros X Y xo Hxo. split.
    - intros Hnil k Hk. apply indexByKey_is_Some in Hk as [p Hp].
      destruct (indexByKey Y !! k) as [q|] eqn:E.
      + apply indexByKey_is_Some. eauto.
      + destruct (indexByKey_Some _ _ _ Hp) as [<- _].
        assert (p ∈ extraLoop xo (indexByKey Y)) as Hin
          by (by apply (extraLoop_elem X)).
        rewrite Hnil in Hin. by apply not_elem_of_nil in Hin.
    - intros Hsub. apply elem_of_nil_inv. intros p Hin.
      apply (extraLoop_elem X) in Hin as [Hp Hn]; [|done].
      apply indexByKey_None in Hn. apply Hn, Hsub.
      apply indexByKey_is_Some. eauto. }
  rewrite (Hside legacy modern), (Hside modern legacy) by done.
  split; [intros [H1 H2] k; split; auto|intros H; split; intros k; apply H].
Qed.

Lemma compare_nothing_extra_witness :
  legacyExtractorExtra
    (compareExtractedPackages [tzdata_rpm; tzdata_deb] [tzdata_deb]) = [] ∧
  modernExtractorExtra
    (compareExtractedPackages [tzdata_rpm; tzdata_deb] [tzdata_deb]) = [].
Proof.
  apply (compare_nothing_extra [tzdata_rpm; tzdata_deb] [tzdata_deb]);
    [apply compareExtractedPackages_returns|].
  intros k. change (key <$> [tzdata_rpm; tzdata_deb]) with [key tzdata_deb; key tzdata_deb].
  change (key <$> [tzdata_deb]) with [key tzdata_deb].
  rewrite !elem_of_cons. tauto.
Defined.

Lemma compare_extras_disjoint_witness :
  key tzdata_deb ≠ key (pkg "b" "noarch" "2.0").
Proof.
  apply (compare_extras_disjoint [tzdata_deb] example_modern
           (compareExtractedPackages [tzdata_deb] example_modern));
    [apply compareExtractedPackages_returns|vm_compute..].
  - apply list_elem_of_singleton. reflexivity.
  - apply elem_of_cons. right. apply list_elem_of_singleton. reflexivity.
Defined.

(** The entries of one index whose key the other index has too. *)
Lemma common_keys_length (m1 m2 : gmap pkgkey PkgInfo) lo mo :
  lo ≡ₚ map_to_list m1 → mo ≡ₚ map_to_list m2 →
  length (filter (fun kv => ¬ m2 !! kv.1 = None) lo) =
  length (filter (fun kv => ¬ m1 !! kv.1 = None) mo).
Proof.
  intros Hlo Hmo.
  rewrite <- (length_fmap fst (filter _ lo)), <- (length_fmap fst (filter _ mo)).
  apply Permutation_length, NoDup_Permutation.
  - by eapply extra_keys_NoDup.
  - by eapply extra_keys_NoDup.
  - intros k. rewrite !list_elem_of_fmap. split.
    + intros ([k' p] & -> & [Hn Hin]%list_elem_of_filter). simpl in *.
      rewrite Hlo, elem_of_map_to_list in Hin.
      destruct (m2 !! k') as [q|] eqn:E; [|done].
      exists (k', q). split; [done|]. apply list_elem_of_filter.
      split; [simpl; congruence|]. by rewrite Hmo, elem_of_map_to_list.
    + intros ([k' p] & -> & [Hn Hin]%list_elem_of_filter). simpl in *.
      rewrite Hmo, elem_of_map_to_list in Hin.
      destruct (m1 !! k') as [q|] eqn:E; [|done].
      exists (k', q). split; [done|]. apply list_elem_of_filter.
      split; [simpl; congruence|]. by rewrite Hlo, elem_of_map_to_list.
Qed.

Lemma extraLoop_length (m other : gmap pkgkey PkgInfo) lo :
  lo ≡ₚ map_to_list m →
  size m = length (extraLoop lo other) +
           length (filter (fun kv => ¬ other !! kv.1 = None) lo).
Proof.
  intros Hlo. rewrite extraLoop_filter, length_fmap, <- length_app.
  rewrite (filter_app_complement (fun kv => other !! kv.1 = None) lo), Hlo.
  by rewrite length_map_to_list.
Qed.

(** X6: no extra list is longer than the count on its side, and the two
    sides agree on how many keys they have in common: the size of the
    legacy index less the legacy-extra records is the size of the modern
    index less the modern-extra records. *)
Theorem compare_extra_lengths legacy modern r :
  compareReturns legacy modern r →
  length (legacyExtractorExtra r) ≤ legacyExtractorItemsCount r ∧
  length (modernExtractorExtra r) ≤ modernExtractorItemsCount r ∧
  size (indexByKey legacy) + length (modernExtractorExtra r) =
  size (indexByKey modern) + length (legacyExtractorExtra r).
Proof.
  intros [lo mo Hlo Hmo]. simpl.
  pose proof (extraLoop_length _ (indexByKey modern) lo Hlo) as Hl.
  pose proof (extraLoop_length _ (indexByKey legacy) mo Hmo) as Hm.
  pose proof (common_keys_length _ _ lo mo Hlo Hmo) as Hc.
  pose proof (indexByKey_size_le legacy).
  pose proof (indexByKey_size_le modern).
  split_and!; lia.
Qed.

Lemma compare_extra_lengths_witness :
  size (indexByKey example_legacy) +
  length (modernExtractorExtra
            (compareExtractedPackages example_legacy example_modern)) =
  size (indexByKey example_modern) +
  length (legacyExtractorExtra
            (compareExtractedPackages example_legacy example_modern)).
Proof.
  apply (compare_extra_lengths example_legacy example_modern).
  apply compareExtractedPackages_returns.
Defined.

Lemma filter_all {A} (P : A → Prop) `{!∀ x, Decision (P x)} (l : list A) :
  (∀ x, P x) → filter P l = l.
Proof.
  intros HP. induction l as [|x l IH]; [done|].
  by rewrite filter_cons, decide_True, IH.
Qed.

(** X7: against an empty inventory, every key of the other inventory is
    reported once, with the last record under the key, and nothing is
    reported for the empty side. *)
Theorem compare_with_empty (l : list PkgInfo) r :
  compareReturns l [] r →
  modernExtractorExtra r = [] ∧
  modernExtractorItemsCount r = 0 ∧
  legacyExtractorExtra r ≡ₚ (map_to_list (indexByKey l)).*2 ∧
  length (legacyExtractorExtra r) = size (indexByKey l).
Proof.
  intros [lo mo Hlo Hmo]. simpl.
  unfold rangeOrder, indexByKey in Hmo. simpl in Hmo.
  rewrite map_to_list_empty in Hmo. apply Permutation_nil_r in Hmo as ->.
  assert (extraLoop lo (indexByKey []) ≡ₚ (map_to_list (indexByKey l)).*2)
    as Hall.
  { rewrite extraLoop_filter, <- Hlo. f_equiv.
    rewrite filter_all; [done|]. intros kv. apply lookup_empty. }
  split_and!; try done.
  by rewrite Hall, length_fmap, length_map_to_list.
Qed.

Lemma compare_with_empty_witness :
  legacyExtractorExtra (compareExtractedPackages [tzdata_rpm; tzdata_deb] [])
  ≡ₚ (map_to_list (indexByKey [tzdata_rpm; tzdata_deb])).*2.
Proof.
  apply (compare_with_empty [tzdata_rpm; tzdata_deb]).
  apply compareExtractedPackages_returns.
Defined.

(** *** The format string of [dpkg-query] *)

Lemma fieldsDescriptors_acc (visited : list (string * string)) acc :
  foldl (fun fieldsDescriptors '(name, selector) =>
           fieldsDescriptors ++ [fieldDescriptor name selector]) acc visited =
  acc ++ ((fun nv => fieldDescriptor nv.1 nv.2) <$> visited).
Proof.
  revert acc. induction visited as [|[n v] visited IH]; intros acc; simpl.
  - by rewrite app_nil_r.
  - rewrite IH. by rewrite <- app_assoc.
Qed.

Lemma fieldsDescriptorsOf_fmap visited :
  fieldsDescriptorsOf visited =
  (fun nv => fieldDescriptor nv.1 nv.2) <$> visited.
Proof. unfold fieldsDescriptorsOf. by rewrite fieldsDescriptors_acc. Qed.

Lemma sort_Strings_perm l1 l2 :
  l1 ≡ₚ l2 → sort_Strings l1 = sort_Strings l2.
Proof.
  intros Hp. unfold sort_Strings.
  apply (Sorted_unique String.le); try apply Sorted_merge_sort; try apply _.
  by rewrite !merge_sort_Permutation.
Qed.

(** X8: the text does not depend on the order in which the map is
    iterated: the descriptors are sorted before they are joined, so every
    call on one map returns one and the same text. *)
Theorem formatFields_predictable (fieldsMapping : gmap string string) out :
  formatFieldsReturns fieldsMapping out →
  out = formatFieldsMappingToFormattingString fieldsMapping.
Proof.
  intros [visited Hv]. unfold formatFieldsMappingToFormattingString,
    formatFieldsVisiting.
  rewrite (sort_Strings_perm (fieldsDescriptorsOf visited)
             (fieldsDescriptorsOf (map_to_list fieldsMapping))); [done|].
  rewrite !fieldsDescriptorsOf_fmap. by rewrite Hv.
Qed.

Lemma formatFields_predictable_witness :
  formatFieldsVisiting
    [("version", "${Version}"); ("package", "${Package}");
     ("architecture", "${Architecture}")] =
  formatFieldsMappingToFormattingString exampleFieldsMapping.
Proof.
  apply formatFields_predictable. constructor.
  apply NoDup_Permutation.
  - vm_compute. repeat (constructor; [rewrite ?elem_of_cons, ?elem_of_nil; intuition discriminate|]). constructor.
  - apply NoDup_map_to_list.
  - intros [n v]. rewrite elem_of_map_to_list.
    unfold exampleFieldsMapping. rewrite !lookup_insert_Some, lookup_empty.
    rewrite !elem_of_cons, elem_of_nil.
    intuition (simplify_eq; auto 10).
Defined.

(** X9: the text is a backslash and an opening brace, the descriptors
    joined by commas, a backslash, a closing brace and a line feed, where
    the descriptors stand in increasing order and there is one for each
    field of the map. *)
Theorem formatFields_shape (fieldsMapping : gmap string string) :
  ∃ ds,
    formatFieldsMappingToFormattingString fieldsMapping =
      backslash +:+ "{" +:+ strings_Join ds "," +:+
      backslash +:+ "}" +:+ lineFeed ∧
    Sorted String.le ds ∧
    ds ≡ₚ (fun nv => fieldDescriptor nv.1 nv.2) <$> map_to_list fieldsMapping ∧
    length ds = size fieldsMapping.
Proof.
  exists (sort_Strings (fieldsDescriptorsOf (map_to_list fieldsMapping))).
  split; [done|]. unfold sort_Strings. split; [apply Sorted_merge_sort; apply _|].
  assert (merge_sort String.le (fieldsDescriptorsOf (map_to_list fieldsMapping))
          ≡ₚ (fun nv => fieldDescriptor nv.1 nv.2) <$> map_to_list fieldsMapping)
    as Hp by (by rewrite merge_sort_Permutation, fieldsDescriptorsOf_fmap).
  split; [done|].
  by rewrite Hp, length_fmap, length_map_to_list.
Qed.

End packages_laws.

Module scalibr_laws.
Import scalibr scalibr_facts.

(** The record [inventoryFrom] builds from a dpkg item and its package
    URL. *)
Lemma inventoryFrom_Ok ToPURL inv item :
  inventoryFrom ToPURL inv = Ok item ↔
  ∃ md purl,
    Metadata inv = DpkgMetadata md ∧ ToPURL inv = Ok purl ∧
    item = {| extractors.Name := Name inv;
              extractors.Version := Version inv;
              extractors.RawArch := "";
              extractors.Inventory_Source :=
                {| extractors.Source_Name := SourceName md;
                   extractors.Source_Version := SourceVersion md |};
              extractors.Purl := purl |}.
Proof.
  unfold inventoryFrom, extractAdditionalFieldsDpkg. split.
  - destruct (Metadata inv) as [md| |]; try done.
    destruct (ToPURL inv) as [purl|e]; [|done].
    intros [= <-]. by exists md, purl.
  - intros (md & purl & -> & -> & ->). done.
Qed.

(** X10: the extraction returns no error exactly when the scan status is
    "succeeded"; every other status, the unspecified zero value too, comes
    with an error, whatever the items are. *)
Theorem deconstructScanResult_error_iff ToPURL (results : ScanResult) :
  (deconstructScanResult ToPURL results).2 = None ↔
  Status (ScanResult_Status results) = ScanStatusSucceeded.
Proof.
  unfold deconstructScanResult.
  destruct (Status (ScanResult_Status results)); simpl; split; done.
Qed.

(** X11: unless the scan failed, the extraction returns exactly the
    records of the dpkg items whose package URL can be built: each has the
    name and version of its item, the source name and version of the dpkg
    metadata, the package URL, and an empty raw architecture. *)
Theorem deconstructScanResult_records_exact ToPURL (results : ScanResult)
    (item : extractors.Inventory) :
  Status (ScanResult_Status results) ≠ ScanStatusFailed →
  item ∈ (deconstructScanResult ToPURL results).1 ↔
  ∃ inv md purl,
    inv ∈ Inventories results ∧
    Metadata inv = DpkgMetadata md ∧ ToPURL inv = Ok purl ∧
    item = {| extractors.Name := Name inv;
              extractors.Version := Version inv;
              extractors.RawArch := "";
              extractors.Inventory_Source :=
                {| extractors.Source_Name := SourceName md;
                   extractors.Source_Version := SourceVersion md |};
              extractors.Purl := purl |}.
Proof.
  intros Hs. rewrite deconstructScanResult_records by done.
  unfold mappedRecords. rewrite list_elem_of_omap. split.
  - intros (inv & Hin & Hacc). unfold accepted in Hacc.
    destruct (inventoryFrom ToPURL inv) as [it|] eqn:E; [|done].
    simplify_eq. apply inventoryFrom_Ok in E as (md & purl & ? & ? & ?).
    by exists inv, md, purl.
  - intros (inv & md & purl & Hin & Hmd & Hpurl & ->).
    exists inv. split; [done|]. unfold accepted.
    by rewrite (proj2 (inventoryFrom_Ok ToPURL inv _)) by eauto.
Qed.

Lemma deconstructScanResult_records_exact_witness :
  {| extractors.Name := "tzdata";
     extractors.Version := "2024a";
     extractors.RawArch := "";
     extractors.Inventory_Source :=
       {| extractors.Source_Name := "tzdata";
          extractors.Source_Version := "2024a" |};
     extractors.Purl := "pkg:deb/tzdata@2024a" |}
  ∈ (deconstructScanResult purlOf partial_scan).1.
Proof.
  apply (deconstructScanResult_records_exact purlOf partial_scan);
    [simpl; discriminate|].
  exists tzdata_item. eexists. eexists.
  split; [|split; [reflexivity|split; reflexivity]].
  apply elem_of_cons. right. apply list_elem_of_singleton. reflexivity.
Defined.

Lemma accepted_Name ToPURL inv item :
  accepted ToPURL inv = Some item → extractors.Name item = Name inv.
Proof.
  unfold accepted. destruct (inventoryFrom ToPURL inv) eqn:E; [|done].
  intros [= <-]. by apply inventoryFrom_Ok in E as (md & purl & _ & _ & ->).
Qed.

Lemma mappedRecords_names_sublist ToPURL invs :
  (extractors.Name <$> mappedRecords ToPURL invs) `sublist_of` (Name <$> invs).
Proof.
  unfold mappedRecords. induction invs as [|inv invs IH]; simpl; [done|].
  destruct (accepted ToPURL inv) as [item|] eqn:E; simpl.
  - rewrite (accepted_Name _ _ _ E). by constructor.
  - by constructor.
Qed.

Lemma mappedRecords_names_all ToPURL invs :
  (∀ inv, inv ∈ invs → is_Some (accepted ToPURL inv)) →
  extractors.Name <$> mappedRecords ToPURL invs = Name <$> invs.
Proof.
  unfold mappedRecords. induction invs as [|inv invs IH]; intros Hall; [done|].
  simpl. destruct (Hall inv) as [item E]; [set_solver|]. rewrite E. simpl.
  rewrite (accepted_Name _ _ _ E). f_equal. apply IH.
  intros ??. apply Hall. set_solver.
Qed.

(** X12: the extraction keeps the order of the scan and invents nothing:
    the names of the returned records are a sublist of the names of the
    scanned items, so there are at most as many records as items; when the
    scan did not fail and every item is a dpkg item with a package URL,
    there is one record for each item, in the same order. *)
Theorem deconstructScanResult_names ToPURL (results : ScanResult) :
  (extractors.Name <$> (deconstructScanResult ToPURL results).1)
    `sublist_of` (Name <$> Inventories results) ∧
  length (deconstructScanResult ToPURL results).1
    ≤ length (Inventories results) ∧
  (Status (ScanResult_Status results) ≠ ScanStatusFailed →
   (∀ inv, inv ∈ Inventories results →
      isDpkg (Metadata inv) ∧ ∃ purl, ToPURL inv = Ok purl) →
   extractors.Name <$> (deconstructScanResult ToPURL results).1 =
   Name <$> Inventories results).
Proof.
  assert ((extractors.Name <$> (deconstructScanResult ToPURL results).1)
            `sublist_of` (Name <$> Inventories results)) as Hsub.
  { destruct (decide (Status (ScanResult_Status results) = ScanStatusFailed))
      as [Hf|Hf].
    - unfold deconstructScanResult. rewrite decide_True by done.
      apply sublist_nil_l.
    - rewrite deconstructScanResult_records by done.
      apply mappedRecords_names_sublist. }
  split_and!; [done| |].
  - apply sublist_length in Hsub. by rewrite !length_fmap in Hsub.
  - intros Hs Hall. rewrite deconstructScanResult_records by done.
    apply mappedRecords_names_all. intros inv Hin.
    destruct (Hall inv Hin) as (Hd & purl & Hp).
    destruct (Metadata inv) as [md| |] eqn:Hmd; try done.
    unfold accepted. erewrite (proj2 (inventoryFrom_Ok ToPURL inv _)); eauto.
Qed.

Lemma deconstructScanResult_names_witness :
  extractors.Name <$> (deconstructScanResult purlOf
     {| ScanResult_Status := ScanResult_Status partial_scan;
        Inventories := [tzdata_item; tzdata_item] |}).1 =
  ["tzdata"; "tzdata"].
Proof.
  refine (proj2 (proj2 (deconstructScanResult_names purlOf
     {| ScanResult_Status := ScanResult_Status partial_scan;
        Inventories := [tzdata_item; tzdata_item] |})) _ _).
  - simpl. discriminate.
  - intros inv Hin. simpl in Hin.
    apply elem_of_cons in Hin as [->|Hin];
      [|apply list_elem_of_singleton in Hin as ->];
      (split; [exact I|eexists; reflexivity]).
Defined.

(** X13: [inventoryFrom] fails in two ways only, and the message tells
    which: an item that is not a dpkg item is "unsupported", and for a dpkg
    item the error of the package URL is passed on behind the prefixes of
    the two functions it goes through. *)
Theorem inventoryFrom_errors ToPURL (inv : scalibr_Inventory) (e : error) :
  inventoryFrom ToPURL inv = Err e ↔
  (¬ isDpkg (Metadata inv) ∧ e = "unsupported inventory item") ∨
  (isDpkg (Metadata inv) ∧ ∃ e0, ToPURL inv = Err e0 ∧
     e = "unable to extract additional fields, err: " +:+
         ("unable to extract purl, " +:+ e0)).
Proof.
  unfold inventoryFrom, extractAdditionalFieldsDpkg.
  destruct (Metadata inv) as [md| |]; simpl.
  - destruct (ToPURL inv) as [purl|e0]; split.
    + done.
    + intros [[Hn _]|(_ & e0 & ? & _)]; [by destruct Hn|done].
    + intros [= <-]. right. split; [done|]. by exists e0.
    + intros [[Hn _]|(_ & e1 & [= <-] & ->)]; [by destruct Hn|done].
  - split; [intros [= <-]; left; tauto|].
    intros [[_ ->]|[[] _]]. done.
  - split; [intros [= <-]; left; tauto|].
    intros [[_ ->]|[[] _]]. done.
Qed.

Lemma extractorsFrom_replicate {ES : Type} (sources : list ES) :
  extractorsFrom sources = replicate (length sources) DpkgExtractor.
Proof.
  unfold extractorsFrom, extractorFrom.
  assert (∀ acc, foldl (fun extractors (_ : ES) => extractors ++ [DpkgExtractor])
                   acc sources =
                 acc ++ replicate (length sources) DpkgExtractor) as H.
  { induction sources as [|s sources IH]; intros acc; simpl.
    - by rewrite app_nil_r.
    - rewrite IH. by rewrite <- app_assoc. }
  apply H.
Qed.

(** X14: [extractorsFrom] answers every source with a dpkg extractor, and
    the extraction does not look at its sources: whatever they are, none or
    many, the scan is configured with exactly one dpkg extractor and with
    the root "C:" on windows and "/" elsewhere, so two calls with
    different sources return the same. *)
Theorem ExtractInventory_ignores_sources ToPURL Scan (GOOS : string)
    {ES ES' : Type} (sources : list ES) (sources' : list ES') :
  extractorsFrom sources = replicate (length sources) DpkgExtractor ∧
  scalibrScanConfig GOOS sources =
    Ok {| ScanRoots := if decide (GOOS = "windows") then "C:" else "/";
          FilesystemExtractors := [DpkgExtractor] |} ∧
  ExtractInventory ToPURL Scan GOOS sources =
  ExtractInventory ToPURL Scan GOOS sources'.
Proof. split; [apply extractorsFrom_replicate|]. split; reflexivity. Qed.

(** X15: the extraction of a scan is the extraction of its first items
    followed by the extraction of the rest. *)
Theorem deconstructScanResult_app ToPURL st (l1 l2 : list scalibr_Inventory) :
  (deconstructScanResult ToPURL
     {| ScanResult_Status := st; Inventories := l1 ++ l2 |}).1 =
  (deconstructScanResult ToPURL
     {| ScanResult_Status := st; Inventories := l1 |}).1 ++
  (deconstructScanResult ToPURL
     {| ScanResult_Status := st; Inventories := l2 |}).1.
Proof.
  destruct (decide (Status st = ScanStatusFailed)) as [Hf|Hf].
  - unfold deconstructScanResult. simpl. by rewrite !decide_True.
  - rewrite !deconstructScanResult_records by done. simpl.
    apply mappedRecords_app.
Qed.

End scalibr_laws.

Module tasker_laws.
Import tasker tasker_facts.

(** X16: the four run-time panics of the primitives cannot happen, however
    many goroutines call [Enqueue] and [Close] at once: a goroutine about
    to send finds the channel open, one about to unlock finds the mutex
    taken, one about to close finds the channel open, the loop's [Done]
    finds a positive counter; so no step leads to a panic. *)
Theorem no_panic programs n s :
  reachable programs n s →
  (∀ i p, producers s !! i = Some p → enqueue_at p = Enqueue_send →
     tc_closed (tq s) = false) ∧
  (∀ i p, producers s !! i = Some p → enqueue_at p = Enqueue_Unlock →
     mx (tq s) ≠ None) ∧
  (∀ c, closers s !! c = Some Close_close → tc_closed (tq s) = false) ∧
  (∀ w, loops s !! w = Some Loop_Done → wg (tq s) ≠ 0) ∧
  (∀ l s', step l s = Some s' → panicked s' = false).
Proof.
  intros Hr. pose proof (reachable_inv _ _ _ Hr) as Hinv. split_inv Hinv.
  split_and!.
  - intros i p Hp Hpc. eapply holder_open; [done..|]. left. done.
  - intros i p Hp Hpc. rewrite (Hmxe i p Hp); [done|]. right. done.
  - intros c Hc. apply not_true_is_false.
    intros (c1 & pc1 & Hc1 & Hcl)%Hclosed.
    assert (c = c1) as <-.
    { eapply closer_holds_unique; [done..|by left|done|].
      destruct Hcl as [->| ->]; unfold holdsClose; auto. }
    rewrite Hc in Hc1. destruct Hcl; congruence.
  - intros w Hw. destruct (single_lookup _ _ _ Hloops Hw) as [-> Hl].
    rewrite Hwg, Hl. done.
  - intros l s' Hstep. by destruct (step_inv l s s' Hinv Hstep).
Qed.

Lemma no_panic_witness :
  panicked (state_after (schedule_drain ++ schedule_close)
              (initial [[t1; t2]] 1)) = false.
Proof.
  refine (proj2 (proj2 (proj2 (proj2 (no_panic [[t1; t2]] 1
     (state_after (schedule_drain ++ [CloseLock 0; CloseClose 0; LoopRan 0;
                     LoopClosed 0; LoopDone 0]) (initial [[t1; t2]] 1)) _))))
     (CloseWait 0) _ _).
  - apply (schedule_reachable _ _
      (schedule_drain ++ [CloseLock 0; CloseClose 0; LoopRan 0;
                          LoopClosed 0; LoopDone 0])).
    vm_compute. reflexivity.
  - vm_compute. reflexivity.
Defined.

(** X17: the mutex is held by at most one goroutine: of the callers of
    [Enqueue] that are between [Lock] and [Unlock] and the callers of
    [Close] that are past [Lock], there is never more than one. *)
Theorem mutex_exclusive programs n s :
  reachable programs n s →
  (∀ i j p q, producers s !! i = Some p → holdsEnqueue (enqueue_at p) →
     producers s !! j = Some q → holdsEnqueue (enqueue_at q) → i = j) ∧
  (∀ c c' pc pc', closers s !! c = Some pc → holdsClose pc →
     closers s !! c' = Some pc' → holdsClose pc' → c = c') ∧
  (∀ i p c pc, producers s !! i = Some p → holdsEnqueue (enqueue_at p) →
     closers s !! c = Some pc → holdsClose pc → False).
Proof.
  intros Hr. pose proof (reachable_inv _ _ _ Hr) as Hinv. split_and!.
  - intros i j p q Hp Hhp Hq Hhq.
    pose proof (inv_mx_enqueue s Hinv i p Hp Hhp).
    pose proof (inv_mx_enqueue s Hinv j q Hq Hhq). congruence.
  - intros c c' pc pc' ????. by eapply closer_holds_unique.
  - intros i p c pc ????. by eapply holders_exclusive.
Qed.

Lemma mutex_exclusive_witness :
  closers (state_after schedule_race_before (initial [[t1]; [t2]] 1)) !! 0
    ≠ Some Close_close.
Proof.
  intros Hc.
  refine (proj2 (proj2 (mutex_exclusive [[t1]; [t2]] 1
     (state_after schedule_race_before (initial [[t1]; [t2]] 1)) _))
     0 (mkProducer Enqueue_send [t1]) 0 Close_close _ _ Hc _).
  - apply (schedule_reachable _ _ schedule_race_before). vm_compute. reflexivity.
  - vm_compute. reflexivity.
  - left. reflexivity.
  - left. reflexivity.
Defined.

(** X18: a second call to [Close] blocks for ever: once one call is past
    [tq.mx.Lock()], every other call is at its [Lock] and stays there, so
    at most one call to [Close] ever returns. *)
Theorem second_Close_blocks programs n s s' c pc c' pc' :
  reachable programs n s →
  closers s !! c = Some pc → holdsClose pc →
  closers s !! c' = Some pc' → c' ≠ c →
  rtc steps_to s s' →
  pc' = Close_Lock ∧ closers s' !! c' = Some Close_Lock.
Proof.
  intros Hr Hc Hh Hc' Hne Hsteps.
  pose proof (reachable_inv _ _ _ Hr) as Hinv.
  assert (∀ t x, inv t → (∃ y, closers t !! c = Some y ∧ holdsClose y) →
            closers t !! c' = Some x → x = Close_Lock) as Hother.
  { intros t x Ht (y & Hy & Hhy) Hx.
    destruct x; try done; destruct Hne;
      (eapply (closer_holds_unique t); [done|exact Hx| |exact Hy|done]);
      unfold holdsClose; auto. }
  split; [by eapply (Hother s); eauto|].
  destruct (rtc_frozen s s' c pc Hinv Hc Hh Hsteps) as (Hinv' & Hc2 & _).
  assert (reachable programs n s') as Hr' by (unfold reachable in *; by eapply rtc_trans).
  destruct (reachable_shaped _ _ _ Hr) as (_ & Hlen & _).
  destruct (reachable_shaped _ _ _ Hr') as (_ & Hlen' & _).
  destruct (lookup_lt_is_Some_2 (closers s') c') as [x Hx].
  { rewrite Hlen', <- Hlen. by eapply lookup_lt_Some. }
  by rewrite Hx, (Hother s' x Hinv' Hc2 Hx).
Qed.


Lemma second_Close_blocks_witness :
  closers (state_after [CloseLock 0; CloseClose 0; CloseWait 0]
             (initial [[t1]] 2)) !! 1 = Some Close_Lock.
Proof.
  refine (proj2 (second_Close_blocks [[t1]] 2
            (state_after [CloseLock 0] (initial [[t1]] 2))
            (state_after [CloseLock 0; CloseClose 0; CloseWait 0]
               (initial [[t1]] 2))
            0 Close_close 1 Close_Lock _ _ _ _ _ _)).
  - apply (schedule_reachable _ _ [CloseLock 0]). vm_compute. reflexivity.
  - vm_compute. reflexivity.
  - left. reflexivity.
  - vm_compute. reflexivity.
  - discriminate.
  - apply (run_schedule_rtc [CloseClose 0; CloseWait 0]). vm_compute.
    reflexivity.
Defined.

(** A [Close] that holds the mutex and has not returned can move, or the
    loop can. *)
Lemma Close_progress s c pc :
  inv s → closers s !! c = Some pc → holdsClose pc →
  pc = Close_returned ∨ ∃ l s', step l s = Some s'.
Proof.
  intros Hinv Hc Hh. split_inv Hinv.
  destruct pc; [by destruct Hh as [|[|]]| | |by left]; right.
  - exists (CloseClose c). unfold step. rewrite Halive, Hc.
    destruct (tc_closed (tq s)) eqn:Hcl; [|by eauto].
    destruct (proj1 Hclosed eq_refl) as (c1 & pc1 & Hc1 & Hcb).
    assert (c = c1) as <-.
    { eapply closer_holds_unique; [done..|].
      destruct Hcb as [->| ->]; unfold holdsClose; auto. }
    rewrite Hc in Hc1. destruct Hcb; congruence.
  - assert (tc_closed (tq s) = true) as Hcl.
    { apply Hclosed. exists c, Close_Wait. split; [done|by left]. }
    destruct (wg (tq s)) as [|k] eqn:Hk.
    { exists (CloseWait c). unfold step. rewrite Halive, Hc, Hk. eauto. }
    destruct (loops s) as [|w [|]] eqn:Hl; simpl in *; try lia.
    destruct w; simpl in *; try done.
    + exists (LoopClosed 0). unfold step. rewrite Halive, Hl, Hcl. eauto.
    + exists (LoopRan 0). unfold step. rewrite Halive, Hl. eauto.
    + exists (LoopDone 0). unfold step. rewrite Halive, Hl, Hk. eauto.
Qed.

(** X19: a call to [Close] that has got the mutex always returns: from
    every state a run leads to its return, and every run that comes to
    rest has it returned, whatever the other goroutines do. *)
Theorem Close_holding_returns programs n s c pc :
  reachable programs n s →
  closers s !! c = Some pc → holdsClose pc →
  (∃ s', rtc steps_to s s' ∧ closers s' !! c = Some Close_returned) ∧
  (∀ s', rtc steps_to s s' → stuck s' →
     closers s' !! c = Some Close_returned).
Proof.
  intros Hr Hc Hh. pose proof (reachable_inv _ _ _ Hr) as Hinv. clear Hr.
  split.
  - remember (weight s) as k eqn:Hk. revert s pc Hk Hinv Hc Hh.
    induction k as [k IH] using lt_wf_ind. intros s pc -> Hinv Hc Hh.
    destruct (Close_progress s c pc Hinv Hc Hh) as [->|(l & s1 & Hl)].
    { exists s. split; [constructor|done]. }
    destruct (step_frozen l s s1 c pc Hinv Hc Hh Hl) as ((pc1 & Hc1 & Hh1) & _).
    destruct (IH (weight s1) (step_weight _ _ _ Hl) s1 pc1 eq_refl)
      as (s' & Hs' & Hdone); [by eapply step_inv|done..|].
    exists s'. split; [|done]. eapply rtc_l; [by exists l|done].
  - intros s' Hsteps Hstuck.
    destruct (rtc_frozen s s' c pc Hinv Hc Hh Hsteps)
      as (Hinv' & (pc' & Hc' & Hh') & _).
    destruct (Close_progress s' c pc' Hinv' Hc' Hh') as [->|(l & s1 & Hl)];
      [done|]. by rewrite Hstuck in Hl.
Qed.

Lemma Close_holding_returns_witness :
  ∃ s', rtc steps_to (state_after [CloseLock 0] (initial [[t1; t2]] 1)) s' ∧
        closers s' !! 0 = Some Close_returned.
Proof.
  refine (proj1 (Close_holding_returns [[t1; t2]] 1
            (state_after [CloseLock 0] (initial [[t1; t2]] 1))
            0 Close_close _ _ _)).
  - apply (schedule_reachable _ _ [CloseLock 0]). vm_compute. reflexivity.
  - vm_compute. reflexivity.
  - left. reflexivity.
Defined.

(** X20: the queue hands over one task at a time.  At most one task has
    been started and has not finished, at most one [Enqueue] has taken the
    mutex and has not returned, and a task is received by the loop only
    when every task received before it has finished. *)
Theorem one_task_in_flight programs n s :
  reachable programs n s →
  length (started s) ≤ length (finished s) + 1 ∧
  length (submitted s) ≤ length (enqueued s) + 1 ∧
  (∀ i w s', step (EnqueueSend i w) s = Some s' →
     finished s = started s ∧ length (started s') = length (finished s') + 1).
Proof.
  intros Hr. pose proof (reachable_inv _ _ _ Hr) as Hinv. split_inv Hinv.
  assert (length (running s) ≤ 1) as Hrun.
  { unfold running. destruct (loops s) as [|[] [|]]; simpl in *; lia. }
  split_and!.
  - rewrite Hsta, length_app. lia.
  - rewrite Hsub, Henq, !length_app. unfold sending, unlocking.
    unfold sending_of, unlocking_of.
    destruct (mx (tq s)) as [[i|c]|]; simpl; try lia.
    destruct (producers s !! i) as [[[] [|]]|]; simpl; lia.
  - intros i w s' Hstep.
    pose proof (inv_alive _ (step_inv _ _ _ Hinv Hstep)) as Halive'.
    step_cases Hstep.
    match goal with
    | H : loops s !! _ = Some Loop_range |- _ =>
        destruct (single_lookup _ _ _ Hloops H) as [_ Hl]
    end.
    assert (finished s = started s) as Hfin.
    { rewrite Hsta. unfold running. rewrite Hl. simpl. by rewrite app_nil_r. }
    split; [done|]. simpl. rewrite length_app, Hfin. simpl. lia.
Qed.

Lemma one_task_in_flight_witness :
  length (started (state_after schedule_drain (initial [[t1; t2]] 1))) ≤
  length (finished (state_after schedule_drain (initial [[t1; t2]] 1))) + 1.
Proof.
  refine (proj1 (one_task_in_flight [[t1; t2]] 1
            (state_after schedule_drain (initial [[t1; t2]] 1)) _)).
  apply (schedule_reachable _ _ schedule_drain). vm_compute. reflexivity.
Defined.

(** *** Many goroutines that enqueue *)

Lemma todo_insert_same (ps : list producer) i p p' :
  ps !! i = Some p → todo p' = todo p →
  todo <$> <[i := p']> ps = todo <$> ps.
Proof.
  intros Hp Ht. rewrite list_fmap_insert, Ht.
  apply list_insert_id. by rewrite list_lookup_fmap, Hp.
Qed.

Lemma todo_insert_tail (ps : list producer) i p p' t :
  ps !! i = Some p → todo p = t :: todo p' →
  concat (todo <$> ps) ≡ₚ t :: concat (todo <$> <[i := p']> ps).
Proof.
  revert i. induction ps as [|q ps IH]; intros [|i] Hp Ht; simpl in *;
    try done.
  - simplify_eq. by rewrite Ht.
  - rewrite (IH i Hp Ht). by rewrite Permutation_middle.
Qed.

(** The tasks that have been enqueued and the tasks still to enqueue are
    together the tasks of the program. *)
Lemma step_tasks l s s' :
  step l s = Some s' →
  enqueued s ++ concat (todo <$> producers s) ≡ₚ
  enqueued s' ++ concat (todo <$> producers s').
Proof.
  intros Hstep.
  destruct l; step_cases Hstep; simpl; try done;
    try (erewrite todo_insert_same; by eauto).
  rewrite <- app_assoc. simpl. apply Permutation_app_head.
  by eapply todo_insert_tail.
Qed.

Lemma reachable_tasks programs n s :
  reachable programs n s →
  concat programs ≡ₚ enqueued s ++ concat (todo <$> producers s).
Proof.
  intros Hr. unfold reachable in Hr.
  assert (concat programs ≡ₚ
          enqueued (initial programs n) ++
          concat (todo <$> producers (initial programs n))) as Hi.
  { simpl. clear Hr.
    induction programs as [|ts tss IH]; simpl; [done|by f_equiv]. }
  induction Hr as [|s s1 s2 [l Hl] _ IH]; [done|].
  apply IH. by rewrite <- (step_tasks _ _ _ Hl).
Qed.

Lemma todo_all_done (ps : list producer) :
  Forall (fun p => p = mkProducer Enqueue_once []) ps →
  concat (todo <$> ps) = [].
Proof. induction 1 as [|p ps -> _ IH]; simpl; done. Qed.

(** When nobody closes the queue, something can move until every producer
    is through its tasks and the loop waits for the next one. *)
Lemma multi_progress programs s :
  inv s → shaped programs 0 s →
  (Forall (fun p => p = mkProducer Enqueue_once []) (producers s) ∧
   running s = [] ∧ mx (tq s) = None) ∨
  (∃ l s', step l s = Some s').
Proof.
  intros Hinv (_ & Hcl%nil_length_inv & Htodo). split_inv Hinv.
  assert (∀ w pc, loops s !! w = Some pc →
            pc = Loop_Done ∨ pc = Loop_returned → False) as Hnc.
  { intros w pc Hw Hpc.
    destruct (proj1 Hclosed (Hlc w pc Hw Hpc)) as (c & x & Hc & _).
    by rewrite Hcl in Hc. }
  destruct (mx (tq s)) as [[i|c]|] eqn:Hmx.
  - destruct (Hheld _ eq_refl) as ([pc td] & Hp & Hh). simpl in Hh.
    destruct td as [|t td]; [destruct (Htodo i _ Hp); [|done]|].
    { simpl. by destruct Hh as [-> | ->]. }
    right. destruct Hh as [-> | ->].
    + assert (tc_closed (tq s) = false) as Hopen
        by (eapply holder_open; [done..|by left]).
      assert (once s = true) as Ho by (by eapply (Hcalled i)).
      destruct (loops s) as [|w [|]] eqn:Hl; simpl in *; try lia.
      { by destruct (Hspawned Ho). }
      destruct w.
      * exists (LoopAdd 0). unfold step. rewrite Halive, Hl. eauto.
      * exists (EnqueueSend i 0). unfold step.
        rewrite Halive, Hp, Hopen, Hl. eauto.
      * exists (LoopRan 0). unfold step. rewrite Halive, Hl. eauto.
      * destruct (Hnc 0 Loop_Done); auto.
      * destruct (Hnc 0 Loop_returned); auto.
    + exists (EnqueueUnlock i). unfold step. rewrite Halive, Hp, Hmx. eauto.
  - destruct (Hheld _ eq_refl) as (pc & Hc & _). by rewrite Hcl in Hc.
  - destruct (decide (Forall (fun p => p = mkProducer Enqueue_once [])
                        (producers s))) as [Hall|Hex].
    + destruct (loops s) as [|w [|]] eqn:Hl; simpl in *; try lia.
      { left. unfold running. by rewrite Hl. }
      destruct w.
      * right. exists (LoopAdd 0). unfold step. rewrite Halive, Hl. eauto.
      * left. unfold running. by rewrite Hl.
      * right. exists (LoopRan 0). unfold step. rewrite Halive, Hl. eauto.
      * destruct (Hnc 0 Loop_Done); auto.
      * destruct (Hnc 0 Loop_returned); auto.
    + right. apply not_Forall_Exists in Hex; [|apply _].
      apply Exists_exists in Hex as ([pc td] & Hin & Hne). simpl in Hne.
      apply list_elem_of_lookup in Hin as [i Hp].
      destruct pc.
      * destruct td as [|t td]; [done|].
        exists (DoOnce i). unfold step. rewrite Halive, Hp.
        destruct (once s); eauto.
      * destruct td as [|t td]; [by destruct (Htodo i _ Hp)|].
        exists (EnqueueLock i). unfold step. rewrite Halive, Hp, Hmx. eauto.
      * discriminate (Hmxe i _ Hp (or_introl eq_refl)).
      * discriminate (Hmxe i _ Hp (or_intror eq_refl)).
Qed.

Lemma multi_done programs s :
  inv s → concat programs ≡ₚ enqueued s ++ concat (todo <$> producers s) →
  Forall (fun p => p = mkProducer Enqueue_once []) (producers s) →
  running s = [] → mx (tq s) = None →
  submitted s = enqueued s ∧ finished s = enqueued s ∧
  finished s ≡ₚ concat programs.
Proof.
  intros Hinv Hperm Hall Hrun Hmx. split_inv Hinv.
  unfold sending, unlocking, sending_of, unlocking_of in *.
  rewrite Hmx in *. rewrite Hrun in *. rewrite !app_nil_r in *.
  rewrite (todo_all_done _ Hall), app_nil_r in Hperm.
  split_and!; [congruence..|]. rewrite Hperm. by rewrite <- Henq, Hsta.
Qed.

(** X21: with any number of goroutines that call [Enqueue] and no call to
    [Close], every run that comes to rest has run every task of every
    goroutine to its end, each one once, and such a run exists from every
    state: no task is lost or run twice, and no call is left blocked. *)
Theorem all_Enqueue_calls_complete programs s :
  reachable programs 0 s →
  (stuck s →
     submitted s = enqueued s ∧ finished s = enqueued s ∧
     finished s ≡ₚ concat programs) ∧
  (∃ s', rtc steps_to s s' ∧
     submitted s' = enqueued s' ∧ finished s' = enqueued s' ∧
     finished s' ≡ₚ concat programs).
Proof.
  intros Hr. pose proof (reachable_inv _ _ _ Hr) as Hinv.
  pose proof (reachable_shaped _ _ _ Hr) as Hsh.
  pose proof (reachable_tasks _ _ _ Hr) as Hperm. clear Hr. split.
  - intros Hstuck.
    destruct (multi_progress programs s Hinv Hsh)
      as [(Hall & Hrun & Hmx)|(l & s1 & Hl)]; [by eapply multi_done|].
    by rewrite Hstuck in Hl.
  - remember (weight s) as k eqn:Hk. revert s Hk Hinv Hsh Hperm.
    induction k as [k IH] using lt_wf_ind. intros s -> Hinv Hsh Hperm.
    destruct (multi_progress programs s Hinv Hsh)
      as [(Hall & Hrun & Hmx)|(l & s1 & Hl)].
    { exists s. split; [constructor|by eapply multi_done]. }
    destruct (IH (weight s1) (step_weight _ _ _ Hl) s1 eq_refl)
      as (s' & Hs' & Hdone).
    + by eapply step_inv.
    + by eapply step_shaped.
    + by rewrite <- (step_tasks _ _ _ Hl).
    + exists s'. split; [|done]. eapply rtc_l; [by exists l|done].
Qed.

Lemma all_Enqueue_calls_complete_witness :
  ∃ s', rtc steps_to (state_after schedule_race_before (initial [[t1]; [t2]] 0)) s' ∧
     submitted s' = enqueued s' ∧ finished s' = enqueued s' ∧
     finished s' ≡ₚ concat [[t1]; [t2]].
Proof.
  refine (proj2 (all_Enqueue_calls_complete [[t1]; [t2]]
            (state_after schedule_race_before (initial [[t1]; [t2]] 0)) _)).
  apply (schedule_reachable _ _ schedule_race_before). vm_compute. reflexivity.
Defined.
End tasker_laws.
